(** * Size estimation for ext4 images: the [Ext4Fs] model of
      service/gcsutils/fs/ext4.go

    The Go methods of [*Ext4Fs] are embedded as computations in a small
    state-and-panic monad.  The state holds the receiver, the lines handed
    to logrus and the time spent in [time.Sleep].  Every [uint64] is a [Z]
    with its wrap-around modulo 2^64 written out; [float64] is the binary64
    instance of the Standard Library's [SpecFloat]. *)

From Stdlib Require Import ZArith Lia List String Permutation.
From Stdlib Require Import SpecFloat QArith Qround DecimalString DecimalN DecimalPos.
Import ListNotations.

Local Open Scope Z_scope.

(** ** Machine integers *)

Module U64.

Definition modulus : Z := 2 ^ 64.

Definition wrap (z : Z) : Z := z mod modulus.

Definition add (a b : Z) : Z := wrap (a + b).
Definition sub (a b : Z) : Z := wrap (a - b).
Definition mul (a b : Z) : Z := wrap (a * b).

(** The values a [uint64] can hold. *)
Definition inRange (z : Z) : Prop := 0 <= z < modulus.

End U64.

(** ** Go run-time outcomes *)

(** The run-time errors this file can raise. *)
Inductive runtime_error : Type :=
| DivideByZero.

(** A pure Go expression either has a value or panics. *)
Inductive result (A : Type) : Type :=
| Ok (a : A)
| Fault (r : runtime_error).

Arguments Ok {A} a.
Arguments Fault {A} r.

(** [n % alignto] on [uint64]: panics on a zero divisor. *)
Definition rem64 (n d : Z) : result Z :=
  if d =? 0 then Fault DivideByZero else Ok (n mod d).

(** Go's [error] values as far as this file produces or forwards them:
    [nil], or what [exec.Cmd.Run] reports. *)
Inductive error : Type :=
| nil
| ExitError (status : Z)
| StartError (msg : string).

Definition is_nil (err : error) : bool :=
  match err with nil => true | _ => false end.

(** ** The receiver *)

Record Ext4Fs : Type := mkExt4Fs {
  BlockSize : Z;
  InodeSize : Z;
  totalSize : Z;
  numInodes : Z
}.

(** Modelled from the spec: the type [FilesystemSizeInfo] is declared in
    another file of the package; the spec calls it SizeResult, a pair of an
    inode count and a total size in bytes. *)
Record FilesystemSizeInfo : Type := mkFilesystemSizeInfo {
  NumInodes : Z;
  TotalSize : Z
}.

(** All four fields hold [uint64] values. *)
Definition wf_fs (e : Ext4Fs) : Prop :=
  U64.inRange (BlockSize e) /\ U64.inRange (InodeSize e) /\
  U64.inRange (totalSize e) /\ U64.inRange (numInodes e).

Definition set_totalSize (v : Z) (e : Ext4Fs) : Ext4Fs :=
  mkExt4Fs (BlockSize e) (InodeSize e) v (numInodes e).

Definition set_numInodes (v : Z) (e : Ext4Fs) : Ext4Fs :=
  mkExt4Fs (BlockSize e) (InodeSize e) (totalSize e) v.

(** ** Logging and the store *)

(** An argument passed to [logrus.Infof]. [VFs] is the receiver as [%+v]
    prints it: a snapshot of its fields at the time of the call. *)
Inductive logval : Type :=
| VFs (e : Ext4Fs)
| VStr (s : string)
| VU64 (z : Z)
| VErr (err : error).

Record log_entry : Type := mkLog {
  log_format : string;
  log_args : list logval
}.

(** [os.File] as far as it is used: [file.Name()]. *)
Record File : Type := mkFile { Name : string }.

Record store : Type := mkStore {
  self : Ext4Fs;               (* the receiver [e] *)
  logged : list log_entry;     (* lines given to logrus, oldest first *)
  slept : Z                    (* nanoseconds spent in [time.Sleep] *)
}.

Inductive outcome (A : Type) : Type :=
| Returns (a : A) (s : store)
| Panics (r : runtime_error).

Arguments Returns {A} a s.
Arguments Panics {A} r.

Definition M (A : Type) : Type := store -> outcome A.

Definition ret {A} (a : A) : M A := fun s => Returns a s.

Definition bind {A B} (c : M A) (k : A -> M B) : M B :=
  fun s => match c s with
           | Returns a s' => k a s'
           | Panics r => Panics r
           end.

Declare Scope go_scope.
Delimit Scope go_scope with go.
Notation "x <- c ;; k" := (bind c (fun x => k))
  (at level 61, c at next level, right associativity) : go_scope.
Notation "c ;; k" := (bind c (fun _ => k))
  (at level 61, right associativity) : go_scope.
Local Open Scope go_scope.

Definition lift {A} (r : result A) : M A :=
  fun s => match r with
           | Ok a => Returns a s
           | Fault f => Panics f
           end.

Definition get : M Ext4Fs := fun s => Returns (self s) s.

Definition modify (f : Ext4Fs -> Ext4Fs) : M unit :=
  fun s => Returns tt (mkStore (f (self s)) (logged s) (slept s)).

(** [logrus.Infof(format, args...)]. *)
Definition Infof (format : string) (args : list logval) : M unit :=
  fun s => Returns tt (mkStore (self s) (logged s ++ [mkLog format args]) (slept s)).

(** [time.Sleep(d)], [d] in nanoseconds. *)
Definition Sleep (d : Z) : M unit :=
  fun s => Returns tt (mkStore (self s) (logged s) (slept s + Z.max d 0)).

Definition Hour : Z := 3600 * 1000000000.

(** A fresh store around a receiver. *)
Definition boot (e : Ext4Fs) : store := mkStore e [] 0.

(** The receiver a computation leaves behind, when it returns. *)
Definition final {A} (o : outcome A) : option Ext4Fs :=
  match o with
  | Returns _ s => Some (self s)
  | Panics _ => None
  end.

(** The value a computation returns, when it returns. *)
Definition value {A} (o : outcome A) : option A :=
  match o with
  | Returns a _ => Some a
  | Panics _ => None
  end.

(** ** Helpers of ext4.go *)

(** [func maxU64(x, y uint64) uint64]. *)
Definition maxU64 (x y : Z) : Z :=
  if x >? y then x else y.

(** [func alignN(n uint64, alignto uint64) uint64]: [n % alignto] is evaluated
    first and panics on zero; the sum and the difference wrap. *)
Definition alignN (n alignto : Z) : result Z :=
  match rem64 n alignto with
  | Fault f => Fault f
  | Ok r =>
      if r =? 0 then Ok n
      else Ok (U64.sub (U64.add n alignto) r)
  end.

(** [func (e *Ext4Fs) addInode()]. *)
Definition addInode : M unit :=
  modify (fun e => set_numInodes (U64.add (numInodes e) 1) e) ;;
  modify (fun e => set_totalSize (U64.add (totalSize e) (InodeSize e)) e).

(** [e.totalSize += v]. *)
Definition addTotal (v : Z) : M unit :=
  modify (fun e => set_totalSize (U64.add (totalSize e) v) e).

(** ** The size context *)

(** [func (e *Ext4Fs) InitSizeContext() error]. *)
Definition InitSizeContext : M error :=
  modify (set_numInodes 11) ;;
  modify (fun e =>
    set_totalSize
      (maxU64 (U64.add 2048 (U64.mul (numInodes e) (InodeSize e))) (BlockSize e)) e) ;;
  e <- get ;;
  Infof "InitSizeContext: %+v" [VFs e] ;;
  ret nil.

(** [func (e *Ext4Fs) CalcRegFileSize(fileName string, fileSize uint64) error]. *)
Definition CalcRegFileSize (fileName : string) (fileSize : Z) : M error :=
  addInode ;;
  e <- get ;;
  addTotal (BlockSize e) ;;
  e <- get ;;
  a <- lift (alignN fileSize (BlockSize e)) ;;
  addTotal a ;;
  e <- get ;;
  Infof "CalcRegFileSize: %+v %s %d" [VFs e; VStr fileName; VU64 fileSize] ;;
  ret nil.

(** [func (e *Ext4Fs) CalcDirSize(dirName string) error]. *)
Definition CalcDirSize (dirName : string) : M error :=
  addInode ;;
  e <- get ;;
  addTotal (U64.mul 3 (BlockSize e)) ;;
  e <- get ;;
  Infof "CalcDirSize: %+v %s" [VFs e; VStr dirName] ;;
  ret nil.

(** [uint64(len(s))]: the length of a Go string in bytes. *)
Definition len64 (s : string) : Z := U64.wrap (Z.of_nat (String.length s)).

(** [func (e *Ext4Fs) CalcSymlinkSize(srcName string, dstName string) error]:
    [len(dstName) > 60] compares the length as an [int]. *)
Definition CalcSymlinkSize (srcName dstName : string) : M error :=
  addInode ;;
  (if Z.of_nat (String.length dstName) >? 60
   then e <- get ;;
        a <- lift (alignN (len64 dstName) (BlockSize e)) ;;
        addTotal a
   else ret tt) ;;
  e <- get ;;
  Infof "CalcSynlinkSize: %+v %s %s" [VFs e; VStr srcName; VStr dstName] ;;
  ret nil.

(** [func (e *Ext4Fs) CalcHardlinkSize(srcName string, dstName string) error]. *)
Definition CalcHardlinkSize (srcName dstName : string) : M error :=
  e <- get ;;
  addTotal (BlockSize e) ;;
  e <- get ;;
  Infof "CalcHardlinkSize: %+v %s %s" [VFs e; VStr srcName; VStr dstName] ;;
  ret nil.

(** [func (e *Ext4Fs) CalcCharDeviceSize(devName string, major uint64, minor uint64) error]. *)
Definition CalcCharDeviceSize (devName : string) (major minor : Z) : M error :=
  addInode ;;
  e <- get ;;
  Infof "CalcCharDeviceSize: %+v %s %d %d" [VFs e; VStr devName; VU64 major; VU64 minor] ;;
  ret nil.

(** [func (e *Ext4Fs) CalcBlockDeviceSize(devName string, major uint64, minor uint64) error]. *)
Definition CalcBlockDeviceSize (devName : string) (major minor : Z) : M error :=
  addInode ;;
  e <- get ;;
  Infof "CalcBlockDeviceSize: %+v %s %d %d" [VFs e; VStr devName; VU64 major; VU64 minor] ;;
  ret nil.

(** [func (e *Ext4Fs) CalcFIFOPipeSize(pipeName string) error]: the line is
    logged before the inode is added. *)
Definition CalcFIFOPipeSize (pipeName : string) : M error :=
  e <- get ;;
  Infof "CalcFIFOPipeSize: %+v %s" [VFs e; VStr pipeName] ;;
  addInode ;;
  ret nil.

(** [func (e *Ext4Fs) CalcSocketSize(sockName string) error]. *)
Definition CalcSocketSize (sockName : string) : M error :=
  e <- get ;;
  Infof "CalcSocketSize: %+v %s" [VFs e; VStr sockName] ;;
  addInode ;;
  ret nil.

(** [func (e *Ext4Fs) CalcAddExAttrSize(fileName string, attr string, data []byte, flags int) error]. *)
Definition CalcAddExAttrSize (fileName attr : string) (data : list Byte.byte) (flags : Z)
  : M error :=
  e <- get ;;
  Infof "CalcAddExAttrSize: %+v %s" [VFs e; VStr fileName] ;;
  ret nil.

(** [func (e *Ext4Fs) GetSizeInfo() FilesystemSizeInfo]. *)
Definition GetSizeInfo (e : Ext4Fs) : FilesystemSizeInfo :=
  mkFilesystemSizeInfo (numInodes e) (totalSize e).

(** [func (e *Ext4Fs) CleanupSizeContext() error]. *)
Definition CleanupSizeContext : M error := ret nil.

(** ** [float64] *)

Module F64.

Definition prec : Z := 53.
Definition emax : Z := 1024.

(** [float64(x)] for an unsigned integer [x]: rounded to nearest, ties to
    even. *)
Definition of_uint64 (x : Z) : spec_float := binary_normalize prec emax x 0 false.

Definition mul : spec_float -> spec_float -> spec_float := SFmul prec emax.

(** The constant [1.50] as a [float64]. *)
Definition c1_50 : spec_float :=
  Eval vm_compute in binary_normalize prec emax 3 (-1) false.

(** The integer part of a float (rounding toward zero), when it is finite. *)
Definition trunc (f : spec_float) : option Z :=
  match f with
  | S754_zero _ => Some 0
  | S754_finite s m e =>
      let mag := if 0 <=? e then Zpos m * 2 ^ e else Zpos m / 2 ^ (- e) in
      Some (if s then - mag else mag)
  | S754_infinity _ | S754_nan => None
  end.

(** What [uint64(f)] yields when [f] is not representable as a [uint64]:
    the Go specification leaves the value to the implementation (amd64
    gives 2^63, arm64 saturates).  *)
Class Conversion : Type := {
  unrepresentable : spec_float -> Z
}.

(** [uint64(f)]. *)
Definition to_uint64 {conv : Conversion} (f : spec_float) : Z :=
  match trunc f with
  | Some v =>
      if (0 <=? v) && (v <? U64.modulus) then v
      else U64.wrap (unrepresentable f)
  | None => U64.wrap (unrepresentable f)
  end.

(** [uint64(float64(x) * 1.50)]. *)
Definition scale {conv : Conversion} (x : Z) : Z :=
  to_uint64 (mul (of_uint64 x) c1_50).

(** The conversion of the amd64 compiler. *)
Definition amd64 : Conversion := {| unrepresentable := fun _ => 2 ^ 63 |}.

End F64.

Section Finalize.

Context {conv : F64.Conversion}.

(** [func (e *Ext4Fs) FinalizeSizeContext() error]: both fields go through
    [float64] and back, then the total size is aligned. *)
Definition FinalizeSizeContext : M error :=
  e <- get ;;
  Infof "FinalizeSizeContext Entry: %+v" [VFs e] ;;
  modify (fun e => set_totalSize (F64.scale (totalSize e)) e) ;;
  modify (fun e => set_numInodes (F64.scale (numInodes e)) e) ;;
  e <- get ;;
  r <- lift (rem64 (totalSize e) (U64.mul 64 (BlockSize e))) ;;
  (if negb (r =? 0)
   then e <- get ;;
        a <- lift (alignN (totalSize e) (U64.mul 64 (BlockSize e))) ;;
        modify (set_totalSize a)
   else ret tt) ;;
  e <- get ;;
  Infof "FinalizeSizeContext Exit: %+v" [VFs e] ;;
  ret nil.

End Finalize.

(** ** Formatting *)

(** [exec.Command(name, args...).Run()]: the external tool, as a function of
    its command line.  [nil] when it exits with status 0. *)
Class Exec : Type := {
  Run : string -> list string -> error
}.

(** [strconv.FormatUint(x, 10)]. *)
Definition FormatUint10 (x : Z) : string :=
  NilZero.string_of_uint (N.to_uint (Z.to_N x)).

Section Format.

Context {tool : Exec}.

(** [func (e *Ext4Fs) MakeFileSystem(file *os.File) error]. *)
Definition MakeFileSystem (file : File) : M error :=
  e <- get ;;
  let blockSize' := FormatUint10 (BlockSize e) in
  let inodeSize' := FormatUint10 (InodeSize e) in
  let numInodes' := FormatUint10 (numInodes e) in
  Infof "making file system with: bs=%d is=%d numi=%d size=%d"
        [VU64 (BlockSize e); VU64 (InodeSize e); VU64 (numInodes e);
         VU64 (totalSize e)] ;;
  let err := Run "mkfs.ext4"
                 ["-O"; "^has_journal,^resize_inode";
                  "-N"; numInodes';
                  "-b"; blockSize';
                  "-I"; inodeSize';
                  "-F";
                  Name file]%string in
  (if negb (is_nil err)
   then Infof "running mkfs.ext4 %s failed with ... (%s)" [VStr (Name file); VErr err] ;;
        Sleep (100 * Hour)
   else ret tt) ;;
  ret err.

(** [func (e *Ext4Fs) MakeBasicFileSystem(file *os.File) error]. *)
Definition MakeBasicFileSystem (file : File) : M error :=
  ret (Run "mkfs.ext4" ["-F"; Name file]%string).

End Format.

(** ** Sequences of calls *)

(** One call of a [Calc*] method with its arguments. *)
Inductive call : Type :=
| RegFile (fileName : string) (fileSize : Z)
| Dir (dirName : string)
| Symlink (srcName dstName : string)
| Hardlink (srcName dstName : string)
| CharDevice (devName : string) (major minor : Z)
| BlockDevice (devName : string) (major minor : Z)
| FIFOPipe (pipeName : string)
| Socket (sockName : string)
| ExAttr (fileName attr : string) (data : list Byte.byte) (flags : Z).

Definition invoke (c : call) : M error :=
  match c with
  | RegFile n sz => CalcRegFileSize n sz
  | Dir n => CalcDirSize n
  | Symlink s d => CalcSymlinkSize s d
  | Hardlink s d => CalcHardlinkSize s d
  | CharDevice n ma mi => CalcCharDeviceSize n ma mi
  | BlockDevice n ma mi => CalcBlockDeviceSize n ma mi
  | FIFOPipe n => CalcFIFOPipeSize n
  | Socket n => CalcSocketSize n
  | ExAttr n a d f => CalcAddExAttrSize n a d f
  end.

(** The length of a Go string fits an [int]. *)
Definition wf_string (s : string) : Prop := Z.of_nat (String.length s) < 2 ^ 63.

(** The arguments of a call are [uint64] values, and the target of a
    symlink is a Go string. *)
Definition wf_call (c : call) : Prop :=
  match c with
  | RegFile _ sz => U64.inRange sz
  | Symlink _ dst => wf_string dst
  | CharDevice _ ma mi | BlockDevice _ ma mi => U64.inRange ma /\ U64.inRange mi
  | _ => True
  end.

(** The calls of a list, one after the other. *)
Fixpoint invokeAll (cs : list call) : M unit :=
  match cs with
  | [] => ret tt
  | c :: cs' => invoke c ;; invokeAll cs'
  end.

(** A receiver with the two sizes set, as the caller prepares it before
    [InitSizeContext]. *)
Definition configure (blockSize inodeSize : Z) : Ext4Fs :=
  mkExt4Fs blockSize inodeSize 0 0.

(** [begin; add*]: the store after [InitSizeContext] and the calls [cs]. *)
Definition session (blockSize inodeSize : Z) (cs : list call) : outcome unit :=
  (InitSizeContext ;; invokeAll cs) (boot (configure blockSize inodeSize)).

(** ** What the spec calls rounding up *)

(** ceil(n / d) for a positive [d]. *)
Definition ceil_div (n d : Z) : Z := (n + d - 1) / d.

(** [n] rounded up to the next multiple of [d], in unbounded integers. *)
Definition roundUp (n d : Z) : Z := ceil_div n d * d.

(** What [addInode] alone makes of the receiver. *)
Definition withInode (e : Ext4Fs) : Ext4Fs :=
  mkExt4Fs (BlockSize e) (InodeSize e)
    (U64.add (totalSize e) (InodeSize e)) (U64.add (numInodes e) 1).

(** ** The accounting of the spec, in unbounded integers *)

(** Inodes a call adds. *)
Definition spec_inodes (c : call) : Z :=
  match c with
  | Hardlink _ _ | ExAttr _ _ _ _ => 0
  | _ => 1
  end.

(** Bytes a call adds, for a block size and an inode size. *)
Definition spec_bytes (blockSize inodeSize : Z) (c : call) : Z :=
  match c with
  | RegFile _ sz => inodeSize + blockSize + roundUp sz blockSize
  | Dir _ => inodeSize + 3 * blockSize
  | Symlink _ dst =>
      inodeSize +
      (if (60 <? String.length dst)%nat
       then roundUp (Z.of_nat (String.length dst)) blockSize else 0)
  | Hardlink _ _ => blockSize
  | CharDevice _ _ _ | BlockDevice _ _ _ | FIFOPipe _ | Socket _ => inodeSize
  | ExAttr _ _ _ _ => 0
  end.


(** ** Statements the properties below are about *)

(** A call is rejected: it returns an error that is not [nil]. *)
Definition rejects (o : outcome error) : Prop :=
  exists err s', o = Returns err s' /\ err <> nil.

(** Neither the total size nor the inode count went down. *)
Definition nondecreasing (e e' : Ext4Fs) : Prop :=
  totalSize e <= totalSize e' /\ numInodes e <= numInodes e'.

(** Two calls of the same method that agree on what the accounting reads:
    the file size of a regular file, the length of a symlink's target. *)
Definition same_shape (c1 c2 : call) : Prop :=
  match c1, c2 with
  | RegFile _ sz1, RegFile _ sz2 => sz1 = sz2
  | Dir _, Dir _ => True
  | Symlink _ d1, Symlink _ d2 => String.length d1 = String.length d2
  | Hardlink _ _, Hardlink _ _ => True
  | CharDevice _ _ _, CharDevice _ _ _ => True
  | BlockDevice _ _ _, BlockDevice _ _ _ => True
  | FIFOPipe _, FIFOPipe _ => True
  | Socket _, Socket _ => True
  | ExAttr _ _ _ _, ExAttr _ _ _ _ => True
  | _, _ => False
  end.

(** [x] rounded up to the next multiple of [a], for a rational [x]. *)
Definition alignUpQ (x : Q) (a : Z) : Z := Qceiling (x / inject_Z a) * a.

(** Scaling by exactly 1.5 and aligning afterwards: the receiver [e'] holds
    1.5 times the inodes of [e], and 1.5 times its total size rounded up to
    a multiple of 64 block sizes. *)
Definition scaled_by_1_5 (e e' : Ext4Fs) : Prop :=
  (inject_Z (numInodes e') == (3 # 2) * inject_Z (numInodes e))%Q /\
  totalSize e' = alignUpQ ((3 # 2) * inject_Z (totalSize e)) (64 * BlockSize e).

(** An external tool that fails: every command exits with status 1. *)
Definition failing_tool : Exec := {| Run := fun _ _ => ExitError 1 |}.

(** The arguments [MakeFileSystem] gives to [mkfs.ext4]. *)
Definition mkfs_args (e : Ext4Fs) (file : File) : list string :=
  ["-O"; "^has_journal,^resize_inode";
   "-N"; FormatUint10 (numInodes e);
   "-b"; FormatUint10 (BlockSize e);
   "-I"; FormatUint10 (InodeSize e);
   "-F"; Name file]%string.

(** ** Whole sessions, in unbounded integers *)

Definition sumZ (l : list Z) : Z := fold_right Z.add 0 l.

(** Bytes and inodes a list of calls adds. *)
Definition session_bytes (blockSize inodeSize : Z) (cs : list call) : Z :=
  sumZ (map (spec_bytes blockSize inodeSize) cs).

Definition session_inodes (cs : list call) : Z :=
  sumZ (map spec_inodes cs).

(** The calls that reach [alignN]: a regular file, and a symlink whose
    target is longer than 60 bytes. *)
Definition needs_align (c : call) : bool :=
  match c with
  | RegFile _ _ => true
  | Symlink _ dst => (60 <? String.length dst)%nat
  | _ => false
  end.

Definition is_exattr (c : call) : bool :=
  match c with
  | ExAttr _ _ _ _ => true
  | _ => false
  end.

(** Reading back a decimal string, the inverse of [FormatUint10]. *)
Definition ParseUint10 (s : string) : option Z :=
  match NilZero.uint_of_string s with
  | Some d => Some (Z.of_N (N.of_uint d))
  | None => None
  end.

(** A computation run on the receiver alone, its log lines and sleep put
    back behind those of the store it started from. *)
Definition reframe {A} (s : store) (o : outcome A) : outcome A :=
  match o with
  | Returns a s' => Returns a (mkStore (self s') (logged s ++ logged s') (slept s + slept s'))
  | Panics r => Panics r
  end.
(** * Properties *)

Arguments U64.wrap : simpl never.
Arguments U64.add : simpl never.
Arguments U64.sub : simpl never.
Arguments U64.mul : simpl never.
Arguments alignN : simpl never.
Arguments rem64 : simpl never.
Arguments F64.scale : simpl never.
Arguments maxU64 : simpl never.
Arguments len64 : simpl never.

(** ** Arithmetic of [uint64] *)

Lemma modulus_pos : 0 < U64.modulus.
Proof. reflexivity. Qed.

Lemma wrap_inRange z : U64.inRange (U64.wrap z).
Proof. unfold U64.inRange, U64.wrap. apply Z.mod_pos_bound, modulus_pos. Qed.

Lemma wrap_small z : U64.inRange z -> U64.wrap z = z.
Proof. unfold U64.inRange, U64.wrap. intros Hz. now apply Z.mod_small. Qed.

Lemma add_inRange a b : U64.inRange (U64.add a b).
Proof. apply wrap_inRange. Qed.

Lemma add_small a b : 0 <= a + b < U64.modulus -> U64.add a b = a + b.
Proof. intros Hab. unfold U64.add. now apply wrap_small. Qed.

Lemma add_wrap_r a b : U64.add a (U64.wrap b) = U64.wrap (a + b).
Proof. unfold U64.add, U64.wrap. now rewrite Zplus_mod_idemp_r. Qed.

(** Equations between wrapped sums, differences and products are decided
    modulo 2^64. *)
#[local] Existing Instances eqm_setoid Zplus_eqm Zminus_eqm Zmult_eqm Zopp_eqm.

Lemma eqm_wrap a b : eqm U64.modulus a b -> U64.wrap a = U64.wrap b.
Proof. exact (fun H => H). Qed.

Ltac u64_ring :=
  unfold U64.add, U64.sub, U64.mul;
  apply eqm_wrap; unfold U64.wrap;
  rewrite ?(Zmod_eqm U64.modulus);
  match goal with |- eqm _ ?x ?y => replace x with y by ring; reflexivity end.

Lemma maxU64_max x y : maxU64 x y = Z.max x y.
Proof. unfold maxU64. destruct (Z.gtb_spec x y); lia. Qed.

(** ** [alignN] *)

Lemma ceil_div_exact q d : 0 < d -> ceil_div (q * d) d = q.
Proof.
  intros Hd. unfold ceil_div.
  replace (q * d + d - 1) with (q * d + (d - 1)) by ring.
  rewrite Z.div_add_l by lia. rewrite Z.div_small by lia. ring.
Qed.

Lemma roundUp_mod0 n d : 0 < d -> n mod d = 0 -> roundUp n d = n.
Proof.
  intros Hd Hr. unfold roundUp.
  pose proof (Z.div_mod n d ltac:(lia)) as E. rewrite Hr, Z.add_0_r in E.
  rewrite E at 1. rewrite (Z.mul_comm d), ceil_div_exact by lia. lia.
Qed.

Lemma roundUp_mod n d : 0 < d -> n mod d <> 0 -> roundUp n d = n + d - n mod d.
Proof.
  intros Hd Hr. unfold roundUp, ceil_div.
  pose proof (Z.mod_pos_bound n d Hd) as Hb.
  pose proof (Z.div_mod n d ltac:(lia)) as E.
  replace (n + d - 1) with ((n / d + 1) * d + (n mod d - 1)) by lia.
  rewrite Z.div_add_l by lia. rewrite (Z.div_small (n mod d - 1)) by lia. lia.
Qed.

Lemma roundUp_ge n d : 0 < d -> n <= roundUp n d.
Proof.
  intros Hd. destruct (Z.eq_dec (n mod d) 0) as [E|E].
  - rewrite roundUp_mod0; auto; lia.
  - rewrite roundUp_mod; auto. pose proof (Z.mod_pos_bound n d Hd). lia.
Qed.

Lemma roundUp_multiple n d : roundUp n d mod d = 0.
Proof. unfold roundUp. apply Z_mod_mult. Qed.

(** [alignN] returns unless the alignment is zero, and its value is the
    rounded-up argument, wrapped to 64 bits. *)
Lemma alignN_spec n d :
  U64.inRange n -> 0 < d ->
  alignN n d = Ok (U64.wrap (roundUp n d)).
Proof.
  intros Hn Hd. unfold alignN, rem64.
  destruct (Z.eqb_spec d 0) as [|_]; [lia|].
  destruct (Z.eqb_spec (n mod d) 0) as [E|E].
  - rewrite roundUp_mod0, wrap_small; auto.
  - rewrite roundUp_mod by auto. unfold U64.sub.
    f_equal. unfold U64.add, U64.wrap. now rewrite Zminus_mod_idemp_l.
Qed.

Lemma alignN_zero n : alignN n 0 = Fault DivideByZero.
Proof. reflexivity. Qed.

Lemma alignN_returns n d : d <> 0 -> exists a, alignN n d = Ok a.
Proof.
  intros Hd. unfold alignN, rem64.
  destruct (Z.eqb_spec d 0) as [|_]; [contradiction|].
  destruct (n mod d =? 0); eexists; reflexivity.
Qed.

(** ** The methods, run on an arbitrary store *)

Ltac run_go :=
  unfold InitSizeContext, CalcRegFileSize, CalcDirSize, CalcSymlinkSize,
    CalcHardlinkSize, CalcCharDeviceSize, CalcBlockDeviceSize, CalcFIFOPipeSize,
    CalcSocketSize, CalcAddExAttrSize, addInode, addTotal;
  cbv beta iota delta [bind ret get modify Infof lift Sleep];
  cbn [self logged slept BlockSize InodeSize totalSize numInodes
       set_totalSize set_numInodes].

Lemma InitSizeContext_run s :
  let e' := mkExt4Fs (BlockSize (self s)) (InodeSize (self s))
              (maxU64 (U64.add 2048 (U64.mul 11 (InodeSize (self s)))) (BlockSize (self s)))
              11 in
  InitSizeContext s =
  Returns nil (mkStore e' (logged s ++ [mkLog "InitSizeContext: %+v" [VFs e']]) (slept s)).
Proof. reflexivity. Qed.

Lemma CalcRegFileSize_run fileName fileSize s a :
  alignN fileSize (BlockSize (self s)) = Ok a ->
  let e := self s in
  let e' := mkExt4Fs (BlockSize e) (InodeSize e)
              (U64.add (U64.add (U64.add (totalSize e) (InodeSize e)) (BlockSize e)) a)
              (U64.add (numInodes e) 1) in
  CalcRegFileSize fileName fileSize s =
  Returns nil (mkStore e'
                 (logged s ++ [mkLog "CalcRegFileSize: %+v %s %d"
                                 [VFs e'; VStr fileName; VU64 fileSize]])
                 (slept s)).
Proof. intros Ha. run_go. rewrite Ha. reflexivity. Qed.

Lemma CalcRegFileSize_fault fileName fileSize s f :
  alignN fileSize (BlockSize (self s)) = Fault f ->
  CalcRegFileSize fileName fileSize s = Panics f.
Proof. intros Ha. run_go. rewrite Ha. reflexivity. Qed.

Lemma CalcDirSize_run dirName s :
  let e := self s in
  let e' := mkExt4Fs (BlockSize e) (InodeSize e)
              (U64.add (U64.add (totalSize e) (InodeSize e)) (U64.mul 3 (BlockSize e)))
              (U64.add (numInodes e) 1) in
  CalcDirSize dirName s =
  Returns nil (mkStore e' (logged s ++ [mkLog "CalcDirSize: %+v %s" [VFs e'; VStr dirName]])
                 (slept s)).
Proof. reflexivity. Qed.

Lemma CalcSymlinkSize_inline srcName dstName s :
  (String.length dstName <= 60)%nat ->
  let e := self s in
  let e' := mkExt4Fs (BlockSize e) (InodeSize e)
              (U64.add (totalSize e) (InodeSize e))
              (U64.add (numInodes e) 1) in
  CalcSymlinkSize srcName dstName s =
  Returns nil (mkStore e'
                 (logged s ++ [mkLog "CalcSynlinkSize: %+v %s %s"
                                 [VFs e'; VStr srcName; VStr dstName]])
                 (slept s)).
Proof.
  intros Hl. run_go.
  destruct (Z.gtb_spec (Z.of_nat (String.length dstName)) 60); [lia|]. reflexivity.
Qed.

Lemma CalcSymlinkSize_block srcName dstName s a :
  (60 < String.length dstName)%nat ->
  alignN (len64 dstName) (BlockSize (self s)) = Ok a ->
  let e := self s in
  let e' := mkExt4Fs (BlockSize e) (InodeSize e)
              (U64.add (U64.add (totalSize e) (InodeSize e)) a)
              (U64.add (numInodes e) 1) in
  CalcSymlinkSize srcName dstName s =
  Returns nil (mkStore e'
                 (logged s ++ [mkLog "CalcSynlinkSize: %+v %s %s"
                                 [VFs e'; VStr srcName; VStr dstName]])
                 (slept s)).
Proof.
  intros Hl Ha. run_go.
  destruct (Z.gtb_spec (Z.of_nat (String.length dstName)) 60); [|lia].
  run_go. rewrite Ha. reflexivity.
Qed.

Lemma CalcHardlinkSize_run srcName dstName s :
  let e := self s in
  let e' := set_totalSize (U64.add (totalSize e) (BlockSize e)) e in
  CalcHardlinkSize srcName dstName s =
  Returns nil (mkStore e'
                 (logged s ++ [mkLog "CalcHardlinkSize: %+v %s %s"
                                 [VFs e'; VStr srcName; VStr dstName]])
                 (slept s)).
Proof. reflexivity. Qed.

Lemma CalcCharDeviceSize_run devName major minor s :
  CalcCharDeviceSize devName major minor s =
  Returns nil (mkStore (withInode (self s))
                 (logged s ++ [mkLog "CalcCharDeviceSize: %+v %s %d %d"
                                 [VFs (withInode (self s)); VStr devName;
                                  VU64 major; VU64 minor]])
                 (slept s)).
Proof. reflexivity. Qed.

Lemma CalcBlockDeviceSize_run devName major minor s :
  CalcBlockDeviceSize devName major minor s =
  Returns nil (mkStore (withInode (self s))
                 (logged s ++ [mkLog "CalcBlockDeviceSize: %+v %s %d %d"
                                 [VFs (withInode (self s)); VStr devName;
                                  VU64 major; VU64 minor]])
                 (slept s)).
Proof. reflexivity. Qed.

Lemma CalcFIFOPipeSize_run pipeName s :
  CalcFIFOPipeSize pipeName s =
  Returns nil (mkStore (withInode (self s))
                 (logged s ++ [mkLog "CalcFIFOPipeSize: %+v %s" [VFs (self s); VStr pipeName]])
                 (slept s)).
Proof. reflexivity. Qed.

Lemma CalcSocketSize_run sockName s :
  CalcSocketSize sockName s =
  Returns nil (mkStore (withInode (self s))
                 (logged s ++ [mkLog "CalcSocketSize: %+v %s" [VFs (self s); VStr sockName]])
                 (slept s)).
Proof. reflexivity. Qed.

Lemma CalcAddExAttrSize_run fileName attr data flags s :
  CalcAddExAttrSize fileName attr data flags s =
  Returns nil (mkStore (self s)
                 (logged s ++ [mkLog "CalcAddExAttrSize: %+v %s" [VFs (self s); VStr fileName]])
                 (slept s)).
Proof. reflexivity. Qed.

Lemma len64_small s : wf_string s -> len64 s = Z.of_nat (String.length s).
Proof.
  unfold wf_string, len64. intros Hs. apply wrap_small.
  unfold U64.inRange, U64.modulus. lia.
Qed.

(** Every call returns [nil] unless the block size is zero, and leaves the
    two configured sizes and the clock alone. *)
Lemma invoke_returns c s :
  BlockSize (self s) <> 0 ->
  exists s', invoke c s = Returns nil s' /\
             BlockSize (self s') = BlockSize (self s) /\
             InodeSize (self s') = InodeSize (self s) /\
             slept s' = slept s.
Proof.
  intros Hb. destruct c as [n sz|n|src dst|src dst|n ma mi|n ma mi|n|n|n a d f]; cbn [invoke].
  - destruct (alignN_returns sz _ Hb) as [a Ha].
    rewrite (CalcRegFileSize_run _ _ _ _ Ha). eexists; repeat split.
  - rewrite CalcDirSize_run. eexists; repeat split.
  - destruct (le_lt_dec (String.length dst) 60) as [Hl|Hl].
    + rewrite (CalcSymlinkSize_inline _ _ _ Hl). eexists; repeat split.
    + destruct (alignN_returns (len64 dst) _ Hb) as [a Ha].
      rewrite (CalcSymlinkSize_block _ _ _ _ Hl Ha). eexists; repeat split.
  - rewrite CalcHardlinkSize_run. eexists; repeat split.
  - rewrite CalcCharDeviceSize_run. eexists; repeat split.
  - rewrite CalcBlockDeviceSize_run. eexists; repeat split.
  - rewrite CalcFIFOPipeSize_run. eexists; repeat split.
  - rewrite CalcSocketSize_run. eexists; repeat split.
  - rewrite CalcAddExAttrSize_run. eexists; repeat split.
Qed.

Lemma invokeAll_returns cs : forall s,
  BlockSize (self s) <> 0 ->
  exists s', invokeAll cs s = Returns tt s' /\
             BlockSize (self s') = BlockSize (self s) /\
             InodeSize (self s') = InodeSize (self s) /\
             slept s' = slept s.
Proof.
  induction cs as [|c cs IH]; intros s Hb; cbn [invokeAll].
  - exists s. repeat split.
  - destruct (invoke_returns c s Hb) as (s1 & E1 & Hb1 & Hi1 & Hs1).
    unfold bind. rewrite E1.
    destruct (IH s1) as (s2 & E2 & Hb2 & Hi2 & Hs2); [congruence|].
    exists s2. repeat split; congruence.
Qed.

Lemma session_returns blockSize inodeSize cs :
  blockSize <> 0 ->
  exists s, session blockSize inodeSize cs = Returns tt s /\
            BlockSize (self s) = blockSize /\
            InodeSize (self s) = inodeSize.
Proof.
  intros Hb. unfold session, bind. rewrite InitSizeContext_run. cbv zeta.
  match goal with |- context [invokeAll cs ?s0] =>
    destruct (invokeAll_returns cs s0) as (s & E & Hb' & Hi' & _); [exact Hb|]
  end.
  exists s. repeat split; assumption.
Qed.

(** The exact effect of a call that returns: the spec's accounting, wrapped
    to 64 bits. *)
Lemma invoke_spec c s :
  wf_fs (self s) -> wf_call c -> 0 < BlockSize (self s) ->
  let e := self s in
  exists s', invoke c s = Returns nil s' /\
             self s' = mkExt4Fs (BlockSize e) (InodeSize e)
                         (U64.wrap (totalSize e + spec_bytes (BlockSize e) (InodeSize e) c))
                         (U64.wrap (numInodes e + spec_inodes c)).
Proof.
  intros (Hbs & His & Htot & Hn) Hc Hb e. subst e.
  destruct c as [n sz|n|src dst|src dst|n ma mi|n ma mi|n|n|n a d f];
    cbn [invoke spec_bytes spec_inodes wf_call] in *.
  - rewrite (CalcRegFileSize_run _ _ _ _ (alignN_spec _ _ Hc Hb)). cbv zeta.
    eexists; split; [reflexivity|]. cbn [self]. f_equal; u64_ring.
  - rewrite CalcDirSize_run. cbv zeta. eexists; split; [reflexivity|]. cbn [self]. f_equal; u64_ring.
  - destruct (Nat.ltb_spec 60 (String.length dst)) as [Hl|Hl].
    + assert (Hlen : U64.inRange (len64 dst)) by apply wrap_inRange.
      rewrite (CalcSymlinkSize_block _ _ _ _ Hl (alignN_spec _ _ Hlen Hb)). cbv zeta.
      eexists; split; [reflexivity|]. cbn [self]. f_equal.
      rewrite (len64_small _ Hc); u64_ring.
    + rewrite (CalcSymlinkSize_inline _ _ _ Hl). cbv zeta.
      eexists; split; [reflexivity|]. cbn [self]. f_equal; u64_ring.
  - rewrite CalcHardlinkSize_run. cbv zeta. eexists; split; [reflexivity|].
    cbn [self]. unfold set_totalSize. f_equal.
    rewrite Z.add_0_r, wrap_small; auto.
  - rewrite CalcCharDeviceSize_run. eexists; split; [reflexivity|]. reflexivity.
  - rewrite CalcBlockDeviceSize_run. eexists; split; [reflexivity|]. reflexivity.
  - rewrite CalcFIFOPipeSize_run. eexists; split; [reflexivity|]. reflexivity.
  - rewrite CalcSocketSize_run. eexists; split; [reflexivity|]. reflexivity.
  - rewrite CalcAddExAttrSize_run. eexists; split; [reflexivity|]. cbn [self].
    rewrite !Z.add_0_r, !wrap_small; auto. destruct (self s); reflexivity.
Qed.

(** ** The baseline *)

(** C3: immediately after [InitSizeContext], whatever the receiver held
    before, the inode count is 11 and the total size is
    max(2048 + 11 * InodeSize, BlockSize), for every block size and inode
    size.  The sum is the code's [uint64] sum; it is the plain integer sum
    whenever that fits 64 bits. *)
Theorem init_baseline s :
  exists s',
    InitSizeContext s = Returns nil s' /\
    numInodes (self s') = 11 /\
    totalSize (self s') =
      Z.max (U64.add 2048 (U64.mul 11 (InodeSize (self s)))) (BlockSize (self s)) /\
    BlockSize (self s') = BlockSize (self s) /\
    InodeSize (self s') = InodeSize (self s) /\
    (0 <= InodeSize (self s) -> 2048 + 11 * InodeSize (self s) < U64.modulus ->
     totalSize (self s') = Z.max (2048 + 11 * InodeSize (self s)) (BlockSize (self s))).
Proof.
  rewrite InitSizeContext_run. cbv zeta. eexists. split; [reflexivity|].
  cbn [self numInodes totalSize BlockSize InodeSize].
  repeat split; try apply maxU64_max.
  intros H0 Hfit. rewrite maxU64_max. f_equal.
  unfold U64.mul. rewrite add_wrap_r. apply wrap_small.
  unfold U64.inRange. lia.
Qed.

Lemma init_baseline_witness :
  exists s', InitSizeContext (boot (configure 4096 256)) = Returns nil s' /\
             numInodes (self s') = 11 /\ totalSize (self s') = 4864.
Proof.
  destruct (init_baseline (boot (configure 4096 256))) as (s' & E & Hn & _ & _ & _ & Ht).
  exists s'. split; [exact E|]. split; [exact Hn|].
  rewrite Ht; [reflexivity|cbn; lia|reflexivity].
Defined.

(** C4, as the code has it: [InitSizeContext] validates nothing.  For every
    receiver, a zero block size or inode size included, it returns [nil]
    and has set the baseline. *)
Theorem init_never_rejects s :
  value (InitSizeContext s) = Some nil /\
  ~ rejects (InitSizeContext s) /\
  (exists e', final (InitSizeContext s) = Some e' /\ numInodes e' = 11).
Proof.
  rewrite InitSizeContext_run. cbv zeta. repeat split.
  - intros (err & s' & E & Herr). injection E as <- _. now apply Herr.
  - eexists. split; reflexivity.
Qed.

(** Counterexample to C4 as the spec states it: with both sizes zero the
    call returns [nil], and the baseline has been accumulated. *)
Lemma init_zero_sizes_accepted :
  BlockSize (configure 0 0) = 0 /\ InodeSize (configure 0 0) = 0 /\
  InitSizeContext (boot (configure 0 0)) =
    Returns nil (mkStore (mkExt4Fs 0 0 2048 11)
                   [mkLog "InitSizeContext: %+v" [VFs (mkExt4Fs 0 0 2048 11)]] 0) /\
  ~ rejects (InitSizeContext (boot (configure 0 0))).
Proof.
  repeat split.
  intros (err & s' & E & Herr). vm_compute in E. injection E as <- _. now apply Herr.
Qed.

(** The zero block size surfaces later, as a run-time panic. *)
Lemma zero_block_size_panics fileName fileSize :
  (InitSizeContext ;; CalcRegFileSize fileName fileSize) (boot (configure 0 256))
  = Panics DivideByZero.
Proof. reflexivity. Qed.

(** ** Per-kind accounting *)

(** C6: a regular file adds one inode and
    InodeSize + BlockSize + ceil(fileSize / BlockSize) * BlockSize bytes,
    in the code's [uint64] arithmetic and so in plain integers whenever the
    sums fit 64 bits; with 4096-byte blocks and 256-byte inodes a file of
    10000 bytes adds 16640 bytes. *)
Theorem regfile_accounting fileName fileSize s :
  U64.inRange fileSize -> 0 < BlockSize (self s) ->
  let e := self s in
  let delta := InodeSize e + BlockSize e + ceil_div fileSize (BlockSize e) * BlockSize e in
  exists s',
    CalcRegFileSize fileName fileSize s = Returns nil s' /\
    numInodes (self s') = U64.add (numInodes e) 1 /\
    totalSize (self s') = U64.add (totalSize e) delta /\
    BlockSize (self s') = BlockSize e /\
    InodeSize (self s') = InodeSize e /\
    (wf_fs e -> numInodes e + 1 < U64.modulus ->
     numInodes (self s') = numInodes e + 1) /\
    (wf_fs e -> totalSize e + delta < U64.modulus ->
     totalSize (self s') = totalSize e + delta) /\
    (BlockSize e = 4096 -> InodeSize e = 256 -> fileSize = 10000 -> delta = 16640).
Proof.
  intros Hsz Hb e delta.
  rewrite (CalcRegFileSize_run _ _ _ _ (alignN_spec _ _ Hsz Hb)). cbv zeta.
  eexists. split; [reflexivity|]. cbn [self numInodes totalSize BlockSize InodeSize].
  fold e. fold (roundUp fileSize (BlockSize e)) in delta.
  assert (Htot : U64.add (U64.add (U64.add (totalSize e) (InodeSize e)) (BlockSize e))
                   (U64.wrap (roundUp fileSize (BlockSize e)))
                 = U64.add (totalSize e) delta) by (subst delta; u64_ring).
  repeat split.
  - exact Htot.
  - intros (_ & _ & _ & Hn) Hfit. apply add_small. unfold U64.inRange in Hn. lia.
  - intros (Hbs & His & Ht & _) Hfit. rewrite Htot. apply add_small.
    pose proof (roundUp_ge fileSize (BlockSize e) Hb).
    unfold U64.inRange in *. subst delta. lia.
  - intros Eb Ei Es. subst delta. rewrite Eb, Ei, Es. reflexivity.
Qed.

Lemma regfile_accounting_witness :
  exists s',
    CalcRegFileSize "layer.tar" 10000 (boot (mkExt4Fs 4096 256 4864 11)) = Returns nil s' /\
    numInodes (self s') = 12 /\ totalSize (self s') = 4864 + 16640.
Proof.
  destruct (regfile_accounting "layer.tar" 10000 (boot (mkExt4Fs 4096 256 4864 11)))
    as (s' & E & _ & _ & _ & _ & Hn & Ht & _).
  - unfold U64.inRange, U64.modulus. lia.
  - cbn. lia.
  - exists s'. split; [exact E|]. split.
    + apply Hn; [unfold wf_fs, U64.inRange, U64.modulus; cbn; lia | reflexivity].
    + rewrite Ht; [reflexivity | unfold wf_fs, U64.inRange, U64.modulus; cbn; lia
                   | reflexivity].
Defined.

(** C7: a symlink always costs one inode; a target of at most 60 bytes
    costs nothing more, a longer one costs its length rounded up to a
    multiple of the block size.  With 4096-byte blocks a 61-byte target
    costs 4096 bytes more. *)
Theorem symlink_accounting srcName dstName s :
  wf_string dstName ->
  let e := self s in
  let len := Z.of_nat (String.length dstName) in
  (len <= 60 ->
   exists s', CalcSymlinkSize srcName dstName s = Returns nil s' /\
              numInodes (self s') = U64.add (numInodes e) 1 /\
              totalSize (self s') = U64.add (totalSize e) (InodeSize e)) /\
  (60 < len -> 0 < BlockSize e ->
   exists s', CalcSymlinkSize srcName dstName s = Returns nil s' /\
              numInodes (self s') = U64.add (numInodes e) 1 /\
              totalSize (self s') =
                U64.add (U64.add (totalSize e) (InodeSize e)) (roundUp len (BlockSize e))) /\
  (BlockSize e = 4096 -> len = 61 -> roundUp len (BlockSize e) = 4096).
Proof.
  intros Hw e len. repeat split.
  - intros Hl. unfold len in Hl.
    rewrite CalcSymlinkSize_inline by lia. cbv zeta.
    eexists. repeat split.
  - intros Hl Hb. unfold len in Hl.
    assert (Hlen : U64.inRange (len64 dstName)) by apply wrap_inRange.
    assert (Hnat : (60 < String.length dstName)%nat) by lia.
    rewrite (CalcSymlinkSize_block _ _ _ _ Hnat (alignN_spec _ _ Hlen Hb)). cbv zeta.
    eexists. split; [reflexivity|]. split; [reflexivity|].
    cbn [self totalSize]. rewrite (len64_small _ Hw). fold e len. u64_ring.
  - intros Eb El. rewrite Eb, El. reflexivity.
Qed.

Lemma symlink_accounting_witness :
  (exists s',
     CalcSymlinkSize "l" "123456789012345678901234567890123456789012345678901234567890"
       (boot (mkExt4Fs 4096 256 4864 11)) = Returns nil s' /\
     totalSize (self s') = 4864 + 256) /\
  (exists s',
     CalcSymlinkSize "l" "1234567890123456789012345678901234567890123456789012345678901"
       (boot (mkExt4Fs 4096 256 4864 11)) = Returns nil s' /\
     totalSize (self s') = 4864 + 256 + 4096).
Proof.
  split.
  - destruct (symlink_accounting "l"
                "123456789012345678901234567890123456789012345678901234567890"
                (boot (mkExt4Fs 4096 256 4864 11))) as (Hin & _ & _).
    + unfold wf_string. cbn. lia.
    + destruct Hin as (s' & E & _ & Ht); [cbn; lia|].
      exists s'. split; [exact E|]. rewrite Ht. reflexivity.
  - destruct (symlink_accounting "l"
                "1234567890123456789012345678901234567890123456789012345678901"
                (boot (mkExt4Fs 4096 256 4864 11))) as (_ & Hblk & _).
    + unfold wf_string. cbn. lia.
    + destruct Hblk as (s' & E & _ & Ht); [cbn; lia|cbn; lia|].
      exists s'. split; [exact E|]. rewrite Ht. reflexivity.
Defined.

(** C8: a hardlink adds one block to the total size and changes nothing
    else: the inode count, the block size, the inode size and the clock
    stay as they were, in every state.  The sum is the code's [uint64]
    sum, the plain sum whenever that fits 64 bits. *)
Theorem hardlink_frame srcName dstName s :
  exists s',
    CalcHardlinkSize srcName dstName s = Returns nil s' /\
    totalSize (self s') = U64.add (totalSize (self s)) (BlockSize (self s)) /\
    numInodes (self s') = numInodes (self s) /\
    BlockSize (self s') = BlockSize (self s) /\
    InodeSize (self s') = InodeSize (self s) /\
    slept s' = slept s /\
    (wf_fs (self s) -> totalSize (self s) + BlockSize (self s) < U64.modulus ->
     totalSize (self s') = totalSize (self s) + BlockSize (self s)).
Proof.
  rewrite CalcHardlinkSize_run. cbv zeta. eexists. split; [reflexivity|].
  cbn [self slept set_totalSize totalSize numInodes BlockSize InodeSize].
  repeat split.
  intros (Hbs & _ & Ht & _) Hfit. apply add_small. unfold U64.inRange in *. lia.
Qed.

Lemma hardlink_frame_witness :
  exists s',
    CalcHardlinkSize "a" "b" (boot (mkExt4Fs 4096 256 21504 12)) = Returns nil s' /\
    totalSize (self s') = 21504 + 4096 /\ numInodes (self s') = 12.
Proof.
  destruct (hardlink_frame "a" "b" (boot (mkExt4Fs 4096 256 21504 12)))
    as (s' & E & _ & Hn & _ & _ & _ & Ht).
  exists s'. split; [exact E|]. split; [|exact Hn].
  rewrite Ht; [reflexivity | unfold wf_fs, U64.inRange, U64.modulus; cbn; lia | reflexivity].
Defined.

(** ** Monotonicity *)

Lemma CalcSymlinkSize_fault srcName dstName s f :
  (60 < String.length dstName)%nat ->
  alignN (len64 dstName) (BlockSize (self s)) = Fault f ->
  CalcSymlinkSize srcName dstName s = Panics f.
Proof.
  intros Hl Ha. run_go.
  destruct (Z.gtb_spec (Z.of_nat (String.length dstName)) 60); [|lia].
  run_go. rewrite Ha. reflexivity.
Qed.

(** A call that returns leaves the two configured sizes alone and keeps
    the fields within 64 bits. *)
Lemma invoke_keeps c s err s' :
  invoke c s = Returns err s' ->
  BlockSize (self s') = BlockSize (self s) /\
  InodeSize (self s') = InodeSize (self s) /\
  (wf_fs (self s) -> wf_fs (self s')).
Proof.
  intros E.
  assert (Hdone : forall e',
            BlockSize e' = BlockSize (self s) -> InodeSize e' = InodeSize (self s) ->
            (totalSize e' = totalSize (self s) \/ U64.inRange (totalSize e')) ->
            (numInodes e' = numInodes (self s) \/ U64.inRange (numInodes e')) ->
            BlockSize e' = BlockSize (self s) /\ InodeSize e' = InodeSize (self s) /\
            (wf_fs (self s) -> wf_fs e')).
  { intros e' Hb Hi Ht Hn. split; [exact Hb|]. split; [exact Hi|].
    intros (Wb & Wi & Wt & Wn). unfold wf_fs. rewrite Hb, Hi.
    repeat split; try apply Wb; try apply Wi;
      try (destruct Ht as [->|Ht]; [apply Wt|apply Ht]);
      (destruct Hn as [->|Hn]; [apply Wn|apply Hn]). }
  destruct c as [n sz|n|src dst|src dst|n ma mi|n ma mi|n|n|n a d f]; cbn [invoke] in E.
  - destruct (alignN sz (BlockSize (self s))) as [a|f] eqn:Ha.
    + rewrite (CalcRegFileSize_run _ _ _ _ Ha) in E. injection E as _ <-.
      apply Hdone; try reflexivity; right; apply add_inRange.
    + rewrite (CalcRegFileSize_fault _ _ _ _ Ha) in E. discriminate.
  - rewrite CalcDirSize_run in E. injection E as _ <-.
    apply Hdone; try reflexivity; right; apply add_inRange.
  - destruct (le_lt_dec (String.length dst) 60) as [Hl|Hl].
    + rewrite (CalcSymlinkSize_inline _ _ _ Hl) in E. injection E as _ <-.
      apply Hdone; try reflexivity; right; apply add_inRange.
    + destruct (alignN (len64 dst) (BlockSize (self s))) as [a|f] eqn:Ha.
      * rewrite (CalcSymlinkSize_block _ _ _ _ Hl Ha) in E. injection E as _ <-.
        apply Hdone; try reflexivity; right; apply add_inRange.
      * rewrite (CalcSymlinkSize_fault _ _ _ _ Hl Ha) in E. discriminate.
  - rewrite CalcHardlinkSize_run in E. injection E as _ <-.
    apply Hdone; try reflexivity; cbn [self set_totalSize totalSize numInodes];
      [right; apply add_inRange|left; reflexivity].
  - rewrite CalcCharDeviceSize_run in E. injection E as _ <-.
    apply Hdone; try reflexivity; right; apply add_inRange.
  - rewrite CalcBlockDeviceSize_run in E. injection E as _ <-.
    apply Hdone; try reflexivity; right; apply add_inRange.
  - rewrite CalcFIFOPipeSize_run in E. injection E as _ <-.
    apply Hdone; try reflexivity; right; apply add_inRange.
  - rewrite CalcSocketSize_run in E. injection E as _ <-.
    apply Hdone; try reflexivity; right; apply add_inRange.
  - rewrite CalcAddExAttrSize_run in E. injection E as _ <-.
    apply Hdone; try reflexivity; left; reflexivity.
Qed.

Lemma invokeAll_keeps cs : forall s s',
  invokeAll cs s = Returns tt s' ->
  BlockSize (self s') = BlockSize (self s) /\
  InodeSize (self s') = InodeSize (self s) /\
  (wf_fs (self s) -> wf_fs (self s')).
Proof.
  induction cs as [|c cs IH]; intros s s' E; cbn [invokeAll] in E.
  - injection E as <-. split; [reflexivity|]. split; [reflexivity|trivial].
  - unfold bind in E. destruct (invoke c s) as [err s1|r] eqn:E1; [|discriminate].
    destruct (invoke_keeps _ _ _ _ E1) as (Hb1 & Hi1 & Hw1).
    destruct (IH _ _ E) as (Hb2 & Hi2 & Hw2).
    split; [congruence|]. split; [congruence|auto].
Qed.

(** The receiver of a session holds the configured sizes, and 64-bit
    values. *)
Lemma session_keeps blockSize inodeSize cs s :
  session blockSize inodeSize cs = Returns tt s ->
  BlockSize (self s) = blockSize /\
  InodeSize (self s) = inodeSize /\
  (U64.inRange blockSize -> U64.inRange inodeSize -> wf_fs (self s)).
Proof.
  unfold session, bind. rewrite InitSizeContext_run. cbv zeta. intros E.
  destruct (invokeAll_keeps _ _ _ E) as (Hb & Hi & Hw).
  cbn [self BlockSize InodeSize boot configure] in Hb, Hi, Hw.
  split; [exact Hb|]. split; [exact Hi|].
  intros Hbs His. apply Hw. unfold wf_fs. cbn [BlockSize InodeSize totalSize numInodes].
  split; [exact Hbs|]. split; [exact His|]. split.
  - rewrite maxU64_max. pose proof (add_inRange 2048 (U64.mul 11 inodeSize)).
    unfold U64.inRange in *. lia.
  - unfold U64.inRange, U64.modulus. lia.
Qed.

(** A call that returns has returned [nil] and has done the spec's
    accounting, wrapped to 64 bits. *)
Lemma invoke_exact c s err s' :
  wf_fs (self s) -> wf_call c ->
  invoke c s = Returns err s' ->
  let e := self s in
  err = nil /\
  self s' = mkExt4Fs (BlockSize e) (InodeSize e)
              (U64.wrap (totalSize e + spec_bytes (BlockSize e) (InodeSize e) c))
              (U64.wrap (numInodes e + spec_inodes c)).
Proof.
  intros Hwf Hc E e. subst e.
  destruct (Z.eq_dec (BlockSize (self s)) 0) as [Hz|Hnz].
  - destruct Hwf as (Hbs & His & Htot & Hn).
    destruct c as [n sz|n|src dst|src dst|n ma mi|n ma mi|n|n|n a d f];
      cbn [invoke spec_bytes spec_inodes wf_call] in *.
    + rewrite (CalcRegFileSize_fault _ _ _ DivideByZero) in E; [discriminate|].
      rewrite Hz. reflexivity.
    + rewrite CalcDirSize_run in E. injection E as <- <-. split; [reflexivity|].
      cbn [self]. rewrite Hz. f_equal; u64_ring.
    + destruct (Nat.ltb_spec 60 (String.length dst)) as [Hl|Hl].
      * rewrite (CalcSymlinkSize_fault _ _ _ DivideByZero Hl) in E; [discriminate|].
        rewrite Hz. reflexivity.
      * rewrite (CalcSymlinkSize_inline _ _ _ Hl) in E. injection E as <- <-.
        split; [reflexivity|]. cbn [self]. f_equal; u64_ring.
    + rewrite CalcHardlinkSize_run in E. injection E as <- <-. split; [reflexivity|].
      cbn [self]. unfold set_totalSize. rewrite Z.add_0_r, (wrap_small _ Hn). reflexivity.
    + rewrite CalcCharDeviceSize_run in E. injection E as <- <-. split; reflexivity.
    + rewrite CalcBlockDeviceSize_run in E. injection E as <- <-. split; reflexivity.
    + rewrite CalcFIFOPipeSize_run in E. injection E as <- <-. split; reflexivity.
    + rewrite CalcSocketSize_run in E. injection E as <- <-. split; reflexivity.
    + rewrite CalcAddExAttrSize_run in E. injection E as <- <-. split; [reflexivity|].
      cbn [self]. rewrite !Z.add_0_r, !wrap_small; auto. destruct (self s); reflexivity.
  - assert (Hb : 0 < BlockSize (self s)).
    { destruct Hwf as (Hbs & _). unfold U64.inRange in Hbs. lia. }
    destruct (invoke_spec c s Hwf Hc Hb) as (s1 & E1 & Hs1).
    rewrite E1 in E. injection E as <- <-. split; [reflexivity|exact Hs1].
Qed.

Lemma spec_inodes_nonneg c : 0 <= spec_inodes c.
Proof. destruct c; cbn; lia. Qed.

Lemma spec_bytes_nonneg blockSize inodeSize c :
  0 <= blockSize -> 0 <= inodeSize -> wf_call c ->
  0 <= spec_bytes blockSize inodeSize c.
Proof.
  intros Hb Hi Hc.
  assert (Hr : forall n, 0 <= n -> 0 <= roundUp n blockSize).
  { intros n Hn. unfold roundUp, ceil_div.
    destruct (Z.eq_dec blockSize 0) as [->|Hnz]; [lia|].
    apply Z.mul_nonneg_nonneg; [|lia]. apply Z.div_pos; lia. }
  destruct c; cbn [spec_bytes wf_call] in *; try lia.
  - unfold U64.inRange in Hc. specialize (Hr fileSize). lia.
  - destruct (_ <? _)%nat; [|lia]. specialize (Hr (Z.of_nat (String.length dstName))). lia.
Qed.

(** One call from a receiver holding 64-bit values: without wrap-around it
    adds exactly what the per-kind accounting says. *)
Lemma invoke_monotone c s :
  wf_fs (self s) -> wf_call c ->
  let e := self s in
  totalSize e + spec_bytes (BlockSize e) (InodeSize e) c < U64.modulus ->
  numInodes e + spec_inodes c < U64.modulus ->
  forall err s',
    invoke c s = Returns err s' ->
    nondecreasing e (self s') /\
    totalSize (self s') = totalSize e + spec_bytes (BlockSize e) (InodeSize e) c /\
    numInodes (self s') = numInodes e + spec_inodes c.
Proof.
  intros Hwf Hc e Hbytes Hinodes err s' E.
  destruct (invoke_exact c s _ _ Hwf Hc E) as (_ & Hs').
  destruct Hwf as (Hbs & His & Htot & Hn). fold e in Hbs, His, Htot, Hn, Hs'.
  pose proof (spec_inodes_nonneg c) as Hi0.
  assert (Hb0 : 0 <= spec_bytes (BlockSize e) (InodeSize e) c).
  { apply spec_bytes_nonneg; unfold U64.inRange in *; try lia. exact Hc. }
  rewrite Hs'. unfold nondecreasing. cbn [totalSize numInodes].
  rewrite !wrap_small by (unfold U64.inRange in *; lia).
  repeat split; lia.
Qed.

(** C9, as the code has it: after [InitSizeContext] and any sequence of
    calls, a further call whose bytes and inodes still fit 64 bits on top
    of the running totals leaves the total size and the inode count where
    they were or higher, and adds exactly what the per-kind accounting
    says; with a non-zero block size the call returns. *)
Theorem monotone_without_wrap blockSize inodeSize cs c s :
  U64.inRange blockSize -> U64.inRange inodeSize -> wf_call c ->
  session blockSize inodeSize cs = Returns tt s ->
  let e := self s in
  totalSize e + spec_bytes blockSize inodeSize c < U64.modulus ->
  numInodes e + spec_inodes c < U64.modulus ->
  (blockSize <> 0 -> exists s', invoke c s = Returns nil s') /\
  (forall err s',
     invoke c s = Returns err s' ->
     nondecreasing e (self s') /\
     totalSize (self s') = totalSize e + spec_bytes blockSize inodeSize c /\
     numInodes (self s') = numInodes e + spec_inodes c).
Proof.
  intros Hbs His Hc E e Hbytes Hinodes.
  destruct (session_keeps _ _ _ _ E) as (Hb & Hi & Hwf).
  specialize (Hwf Hbs His). split.
  - intros Hnz. rewrite <- Hb in Hnz.
    destruct (invoke_returns c s Hnz) as (s' & E' & _). now exists s'.
  - intros err s' E'. subst e.
    pose proof (invoke_monotone c s Hwf Hc) as Hstep. cbv zeta in Hstep.
    rewrite Hb, Hi in Hstep. exact (Hstep Hbytes Hinodes err s' E').
Qed.

Lemma monotone_without_wrap_witness :
  exists s s',
    session 4096 256 [RegFile "a" 10000] = Returns tt s /\
    invoke (Dir "etc") s = Returns nil s' /\
    nondecreasing (self s) (self s') /\
    totalSize (self s') = 21504 + 256 + 3 * 4096.
Proof.
  destruct (session_returns 4096 256 [RegFile "a" 10000] ltac:(lia)) as (s & E & _).
  assert (Ht : totalSize (self s) = 21504 /\ numInodes (self s) = 12).
  { vm_compute in E. injection E as <-. split; reflexivity. }
  destruct Ht as (Ht & Hn).
  destruct (monotone_without_wrap 4096 256 [RegFile "a" 10000] (Dir "etc") s)
    as (Hret & Hstep).
  - unfold U64.inRange, U64.modulus. lia.
  - unfold U64.inRange, U64.modulus. lia.
  - exact I.
  - exact E.
  - rewrite Ht. reflexivity.
  - rewrite Hn. reflexivity.
  - destruct Hret as (s' & E'); [lia|].
    exists s, s'. split; [exact E|]. split; [exact E'|].
    destruct (Hstep _ _ E') as (Hmono & Ht' & _). split; [exact Hmono|].
    rewrite Ht', Ht. reflexivity.
Defined.

(** Counterexample to C9 as the spec states it: right after [InitSizeContext] with
    4096-byte blocks and 256-byte inodes, one regular file of 2^64 - 8192
    bytes takes the total size from 4864 down to 1024. *)
Lemma monotone_counterexample :
  exists s s',
    session 4096 256 [] = Returns tt s /\
    wf_call (RegFile "big" 18446744073709543424) /\
    invoke (RegFile "big" 18446744073709543424) s = Returns nil s' /\
    totalSize (self s) = 4864 /\
    totalSize (self s') = 1024 /\
    ~ nondecreasing (self s) (self s').
Proof.
  eexists. eexists. split; [reflexivity|]. split.
  { unfold wf_call, U64.inRange, U64.modulus. lia. }
  split; [vm_compute; reflexivity|]. split; [reflexivity|]. split; [reflexivity|].
  intros [Hle _]. vm_compute in Hle. now apply Hle.
Qed.

(** ** Independence of names, device numbers and attributes *)

Lemma len64_length d1 d2 : String.length d1 = String.length d2 -> len64 d1 = len64 d2.
Proof. unfold len64. now intros ->. Qed.

(** C10: the receiver a call leaves behind (or its panic) depends only on
    the method, the file size of a regular file and the length of a
    symlink's target; names, paths, device numbers and the key, value and
    flags of an extended attribute play no part. *)
Theorem accounting_ignores_names c1 c2 s :
  same_shape c1 c2 ->
  final (invoke c1 s) = final (invoke c2 s).
Proof.
  destruct c1 as [n1 sz1|n1|src1 dst1|src1 dst1|n1 ma1 mi1|n1 ma1 mi1|n1|n1|n1 a1 d1 f1];
  destruct c2 as [n2 sz2|n2|src2 dst2|src2 dst2|n2 ma2 mi2|n2 ma2 mi2|n2|n2|n2 a2 d2 f2];
    cbn [same_shape invoke]; intros Hs; try contradiction; try reflexivity.
  - subst sz2. run_go.
    destruct (alignN sz1 (BlockSize (self s))); reflexivity.
  - run_go. rewrite Hs, (len64_length _ _ Hs).
    destruct (Z.of_nat (String.length dst2) >? 60); [|reflexivity].
    run_go. destruct (alignN (len64 dst2) (BlockSize (self s))); reflexivity.
Qed.

Lemma accounting_ignores_names_witness :
  final (invoke (Symlink "/bin/sh" "busybox") (boot (mkExt4Fs 4096 256 4864 11))) =
  final (invoke (Symlink "/usr/lib" "../lib/") (boot (mkExt4Fs 4096 256 4864 11))).
Proof.
  apply (accounting_ignores_names (Symlink "/bin/sh" "busybox") (Symlink "/usr/lib" "../lib/")).
  reflexivity.
Defined.

(** The names do reach the log: the stores differ, the receivers do not. *)
Lemma names_reach_the_log :
  invoke (Dir "a") (boot (configure 4096 256)) <> invoke (Dir "b") (boot (configure 4096 256)).
Proof. intros E. vm_compute in E. discriminate E. Qed.

(** ** Finalization *)

Section FinalizeFacts.

Context {conv : F64.Conversion}.

Lemma to_uint64_inRange f : U64.inRange (F64.to_uint64 f).
Proof.
  unfold F64.to_uint64.
  destruct (F64.trunc f) as [v|]; [|apply wrap_inRange].
  destruct (Z.leb_spec 0 v), (Z.ltb_spec v U64.modulus); cbn [andb];
    try apply wrap_inRange.
  split; assumption.
Qed.

Lemma scale_inRange x : U64.inRange (F64.scale x).
Proof. apply to_uint64_inRange. Qed.

(** The total size [FinalizeSizeContext] leaves, from the scaled size [t]
    and the alignment [a]. *)
Lemma FinalizeSizeContext_run s :
  let e := self s in
  let a := U64.mul 64 (BlockSize e) in
  let t := F64.scale (totalSize e) in
  let e' := mkExt4Fs (BlockSize e) (InodeSize e)
              (if t mod a =? 0 then t else U64.sub (U64.add t a) (t mod a))
              (F64.scale (numInodes e)) in
  a <> 0 ->
  FinalizeSizeContext s =
  Returns nil (mkStore e'
                 (logged s ++ [mkLog "FinalizeSizeContext Entry: %+v" [VFs e]]
                           ++ [mkLog "FinalizeSizeContext Exit: %+v" [VFs e']])
                 (slept s)).
Proof.
  intros e a t e' Ha. unfold FinalizeSizeContext. run_go.
  fold e. fold a. fold t. unfold rem64, alignN, rem64.
  destruct (Z.eqb_spec a 0) as [|_]; [contradiction|].
  destruct (Z.eqb_spec (t mod a) 0) as [E|E]; cbn [negb]; run_go;
    subst e'; [rewrite <- app_assoc; reflexivity|].
  fold a.
  destruct (Z.eqb_spec a 0) as [|_]; [contradiction|].
  destruct (Z.eqb_spec (t mod a) 0) as [|_]; [contradiction|].
  run_go. rewrite <- app_assoc. reflexivity.
Qed.

Lemma FinalizeSizeContext_panics s :
  U64.mul 64 (BlockSize (self s)) = 0 ->
  FinalizeSizeContext s = Panics DivideByZero.
Proof.
  intros Ha. unfold FinalizeSizeContext. run_go. rewrite Ha. reflexivity.
Qed.

End FinalizeFacts.

(** A power of two up to 2^64 divides the modulus, so wrapping keeps
    multiples of it. *)
Lemma wrap_mod_pow2 x j : 0 <= j <= 64 -> U64.wrap x mod 2 ^ j = x mod 2 ^ j.
Proof.
  intros Hj. unfold U64.wrap, U64.modulus.
  apply Z.mod_mod_divide.
  exists (2 ^ (64 - j)). rewrite <- Z.pow_add_r by lia. f_equal. lia.
Qed.

Lemma aligned_pow2 t j :
  0 <= j <= 64 ->
  (if t mod 2 ^ j =? 0 then t else U64.sub (U64.add t (2 ^ j)) (t mod 2 ^ j)) mod 2 ^ j = 0.
Proof.
  intros Hj. destruct (Z.eqb_spec (t mod 2 ^ j) 0) as [E|E]; [exact E|].
  assert (Hp : 0 < 2 ^ j) by (apply Z.pow_pos_nonneg; lia).
  replace (U64.sub (U64.add t (2 ^ j)) (t mod 2 ^ j))
    with (U64.wrap (t + 2 ^ j - t mod 2 ^ j)) by u64_ring.
  rewrite wrap_mod_pow2 by exact Hj.
  rewrite <- roundUp_mod by assumption. apply roundUp_multiple.
Qed.

(** For a block size that is not a power of two the same holds as long as
    the rounded-up size still fits 64 bits. *)
Lemma finalize_aligned_no_wrap {conv : F64.Conversion} s :
  let a := 64 * BlockSize (self s) in
  0 < a < U64.modulus ->
  roundUp (F64.scale (totalSize (self s))) a < U64.modulus ->
  exists s', FinalizeSizeContext s = Returns nil s' /\ totalSize (self s') mod a = 0.
Proof.
  intros a Ha Hfit.
  assert (Ea : U64.mul 64 (BlockSize (self s)) = a).
  { apply wrap_small. exact (conj (Z.lt_le_incl _ _ (proj1 Ha)) (proj2 Ha)). }
  eexists. split.
  { apply FinalizeSizeContext_run. rewrite Ea. lia. }
  cbn [self totalSize]. rewrite Ea.
  set (t := F64.scale (totalSize (self s))) in *.
  destruct (Z.eqb_spec (t mod a) 0) as [E|E]; [exact E|].
  replace (U64.sub (U64.add t a) (t mod a)) with (U64.wrap (t + a - t mod a)) by u64_ring.
  rewrite <- roundUp_mod by (lia || assumption).
  rewrite wrap_small; [apply roundUp_multiple|].
  pose proof (roundUp_ge t a ltac:(lia)). pose proof (scale_inRange (totalSize (self s))) as Hs.
  fold t in Hs. unfold U64.inRange in *. lia.
Qed.

(** C1: with a block size 2^k whose 64-fold fits a [uint64] (k up to 57),
    after any sequence of calls [FinalizeSizeContext] returns, and the
    total size [GetSizeInfo] then reports is a multiple of 64 times the
    block size. *)
Theorem finalize_aligned {conv : F64.Conversion} k inodeSize cs :
  0 <= k <= 57 ->
  exists s s',
    session (2 ^ k) inodeSize cs = Returns tt s /\
    FinalizeSizeContext s = Returns nil s' /\
    BlockSize (self s') = 2 ^ k /\
    TotalSize (GetSizeInfo (self s')) mod (64 * BlockSize (self s')) = 0.
Proof.
  intros Hk.
  assert (Hp : 0 < 2 ^ k) by (apply Z.pow_pos_nonneg; lia).
  destruct (session_returns (2 ^ k) inodeSize cs ltac:(lia)) as (s & E & Hb & Hi).
  assert (Ha : U64.mul 64 (BlockSize (self s)) = 2 ^ (k + 6)).
  { rewrite Hb. unfold U64.mul. rewrite Z.pow_add_r by lia.
    rewrite (Z.mul_comm 64). apply wrap_small.
    rewrite <- Z.pow_add_r by lia. split; [apply Z.pow_nonneg; lia|].
    unfold U64.modulus. apply Z.pow_lt_mono_r; lia. }
  exists s. eexists. split; [exact E|]. split.
  - apply FinalizeSizeContext_run. rewrite Ha. apply Z.pow_nonzero; lia.
  - cbn [self BlockSize GetSizeInfo TotalSize totalSize]. split; [exact Hb|].
    rewrite Ha, Hb. replace (64 * 2 ^ k) with (2 ^ (k + 6))
      by (rewrite Z.pow_add_r by lia; reflexivity || lia).
    apply aligned_pow2. lia.
Qed.

Lemma finalize_aligned_witness :
  exists s s',
    session 4096 256 [RegFile "a" 10000; Dir "d"; Hardlink "b" "a"] = Returns tt s /\
    FinalizeSizeContext (conv := F64.amd64) s = Returns nil s' /\
    TotalSize (GetSizeInfo (self s')) mod (64 * 4096) = 0.
Proof.
  destruct (finalize_aligned (conv := F64.amd64) 12 256
              [RegFile "a" 10000; Dir "d"; Hardlink "b" "a"])
    as (s & s' & E & F & Hb & Hal).
  - lia.
  - exists s, s'. split; [exact E|]. split; [exact F|].
    rewrite Hb in Hal. exact Hal.
Defined.

(** ** [float64] arithmetic on small integers is exact *)

Module F64Facts.

Lemma digits2_pos_size p : digits2_pos p = Pos.size p.
Proof. induction p as [p IH|p IH|]; cbn; now rewrite ?IH. Qed.

(** A positive number has [d] binary digits iff it lies in [2^(d-1), 2^d). *)
Lemma digits_bounds p : 2 ^ (Zpos (digits2_pos p) - 1) <= Zpos p < 2 ^ Zpos (digits2_pos p).
Proof.
  rewrite digits2_pos_size.
  assert (Hgt : Zpos p < Zpos (2 ^ Pos.size p)) by exact (Pos.size_gt p).
  assert (Hle : Zpos (2 ^ Pos.size p) <= Zpos p~0) by exact (Pos.size_le p).
  rewrite Pos2Z.inj_pow in Hgt, Hle. change (Zpos p~0) with (2 * Zpos p) in Hle.
  replace (2 ^ Zpos (Pos.size p)) with (2 * 2 ^ (Zpos (Pos.size p) - 1)) in Hle.
  - lia.
  - rewrite <- Z.pow_succ_r by lia. f_equal. lia.
Qed.

Lemma digits_unique p d : 2 ^ (d - 1) <= Zpos p < 2 ^ d -> Zpos (digits2_pos p) = d.
Proof.
  intros [Hlo Hhi]. pose proof (digits_bounds p) as [Hlo' Hhi'].
  set (D := Zpos (digits2_pos p)) in *.
  assert (HD : 0 < D) by (subst D; lia).
  destruct (Z.lt_trichotomy D d) as [Hlt|[Heq|Hgt]]; [|exact Heq|]; exfalso.
  - assert (2 ^ D <= 2 ^ (d - 1)) by (apply Z.pow_le_mono_r; lia). lia.
  - assert (0 <= d).
    { destruct (Z.le_gt_cases 0 d); [assumption|].
      rewrite (Z.pow_neg_r 2 d) in Hhi by lia. lia. }
    assert (2 ^ d <= 2 ^ (D - 1)) by (apply Z.pow_le_mono_r; lia). lia.
Qed.

Lemma digits_shift p q n :
  0 <= n -> Zpos p = Zpos q * 2 ^ n ->
  Zpos (digits2_pos p) = Zpos (digits2_pos q) + n.
Proof.
  intros Hn E. apply digits_unique. pose proof (digits_bounds q) as [Hlo Hhi].
  set (D := Zpos (digits2_pos q)) in *.
  assert (HD : 0 < D) by (subst D; lia).
  assert (Hp : 0 < 2 ^ n) by (apply Z.pow_pos_nonneg; lia).
  rewrite E. replace (D + n - 1) with (D - 1 + n) by lia.
  rewrite !Z.pow_add_r by lia. split; nia.
Qed.

(** Every positive number below 2^53 has a 53-digit multiple by a power
    of two. *)
Lemma normalise y :
  Zpos y < 2 ^ 53 ->
  exists q, Zpos q = Zpos y * 2 ^ (53 - Zpos (digits2_pos y)) /\
            Zpos (digits2_pos q) = 53 /\
            1 <= Zpos (digits2_pos y) <= 53.
Proof.
  intros Hy. pose proof (digits_bounds y) as [Hlo Hhi].
  set (D := Zpos (digits2_pos y)) in *.
  assert (HD : 1 <= D) by (subst D; lia).
  assert (HD53 : D <= 53).
  { destruct (Z.le_gt_cases D 53); [assumption|exfalso].
    assert (2 ^ 53 <= 2 ^ (D - 1)) by (apply Z.pow_le_mono_r; lia). lia. }
  assert (Hp : 0 < 2 ^ (53 - D)) by (apply Z.pow_pos_nonneg; lia).
  destruct (Zpos y * 2 ^ (53 - D)) as [|q|q] eqn:E; try lia.
  exists q. split; [reflexivity|]. split; [|lia].
  rewrite (digits_shift q y (53 - D)) by lia. fold D. lia.
Qed.

(** *** Shifting right a multiple of a power of two *)

Lemma iter_pos_nat {A} (f : A -> A) p : forall x,
  SpecFloat.iter_pos f p x = Nat.iter (Pos.to_nat p) f x.
Proof.
  induction p as [p IH|p IH|]; intros x; cbn [SpecFloat.iter_pos].
  - rewrite !IH, Pos2Nat.inj_xI.
    replace (S (2 * Pos.to_nat p)) with (Pos.to_nat p + (Pos.to_nat p + 1))%nat by lia.
    rewrite !Nat.iter_add. reflexivity.
  - rewrite !IH, Pos2Nat.inj_xO.
    replace (2 * Pos.to_nat p)%nat with (Pos.to_nat p + Pos.to_nat p)%nat by lia.
    rewrite Nat.iter_add. reflexivity.
  - reflexivity.
Qed.

Lemma shr_1_even q :
  shr_1 (Build_shr_record (Zpos (xO q)) false false) = Build_shr_record (Zpos q) false false.
Proof. reflexivity. Qed.

Lemma iter_shr_1_exact n : forall p q,
  Zpos p = Zpos q * 2 ^ Z.of_nat n ->
  Nat.iter n shr_1 (Build_shr_record (Zpos p) false false)
  = Build_shr_record (Zpos q) false false.
Proof.
  induction n as [|n IH]; intros p q E.
  - change (2 ^ Z.of_nat 0) with 1 in E. rewrite Z.mul_1_r in E. now injection E as ->.
  - rewrite Nat.iter_succ_r.
    rewrite Nat2Z.inj_succ, Z.pow_succ_r in E by lia.
    destruct p as [p|p|]; try lia.
    rewrite shr_1_even. apply IH. lia.
Qed.

Lemma shr_exact p q ex n :
  0 <= n -> Zpos p = Zpos q * 2 ^ n ->
  shr (Build_shr_record (Zpos p) false false) ex n
  = (Build_shr_record (Zpos q) false false, ex + n).
Proof.
  intros Hn E. destruct n as [|n|n]; try lia.
  - cbn in *. rewrite Z.add_0_r. f_equal. f_equal. lia.
  - cbn [shr]. rewrite iter_pos_nat. f_equal.
    apply iter_shr_1_exact. now rewrite positive_nat_Z.
Qed.

(** *** Rounding a number that needs no rounding *)

Lemma fexp_normal e : -1021 <= e -> fexp F64.prec F64.emax e = e - 53.
Proof. intros He. unfold fexp, emin, F64.prec, F64.emax. lia. Qed.

(** A mantissa that is a 53-digit number times 2^n rounds to that number,
    with the exponent moved by [n]. *)
Lemma binary_round_aux_exact sx p q ex n :
  Zpos (digits2_pos q) = 53 ->
  0 <= n -> Zpos p = Zpos q * 2 ^ n ->
  -1074 <= ex + n <= 971 ->
  binary_round_aux F64.prec F64.emax sx (Zpos p) ex loc_Exact
  = S754_finite sx q (ex + n).
Proof.
  intros Hq Hn E He.
  assert (Hd : Zpos (digits2_pos p) = 53 + n).
  { rewrite (digits_shift p q n Hn E). lia. }
  unfold binary_round_aux, shr_fexp.
  cbn [Zdigits2 shr_record_of_loc].
  rewrite Hd, fexp_normal by lia.
  replace (53 + n + ex - 53 - ex) with n by lia.
  rewrite (shr_exact p q ex n Hn E).
  cbn [shr_m loc_of_shr_record round_nearest_even Zdigits2 shr_record_of_loc].
  rewrite Hq, fexp_normal by lia.
  replace (53 + (ex + n) - 53 - (ex + n)) with 0 by lia.
  cbn [shr shr_m]. unfold F64.emax, F64.prec.
  destruct (Z.leb_spec (ex + n) (1024 - 53)); [reflexivity|lia].
Qed.

Lemma iter_xO p k : Zpos (Pos.iter xO p k) = Zpos p * 2 ^ Zpos k.
Proof.
  rewrite Pos2Nat.inj_iter, <- (positive_nat_Z k). unfold Nat.iter.
  induction (Pos.to_nat k) as [|n IH].
  - cbn. lia.
  - cbn [nat_rect]. rewrite Pos2Z.inj_xO, IH, Nat2Z.inj_succ, Z.pow_succ_r by lia. ring.
Qed.

(** [float64(x)] for 0 < x < 2^53 is [x] itself, normalised. *)
Lemma of_uint64_exact x :
  Zpos x < 2 ^ 53 ->
  exists q,
    F64.of_uint64 (Zpos x) = S754_finite false q (Zpos (digits2_pos x) - 53) /\
    Zpos q = Zpos x * 2 ^ (53 - Zpos (digits2_pos x)) /\
    Zpos (digits2_pos q) = 53 /\
    1 <= Zpos (digits2_pos x) <= 53.
Proof.
  intros Hx. destruct (normalise x Hx) as (q & Eq & Hq & Hd).
  exists q. repeat split; try assumption; try lia.
  unfold F64.of_uint64, binary_normalize, binary_round.
  rewrite Z.add_0_r, fexp_normal by lia.
  set (D := Zpos (digits2_pos x)) in *.
  unfold shl_align. rewrite Z.sub_0_r.
  destruct (D - 53) as [|d|d] eqn:ED; try lia.
  - replace (53 - D) with 0 in Eq by lia. rewrite Z.mul_1_r in Eq. injection Eq as ->.
    rewrite (binary_round_aux_exact false x x 0 0); auto; try lia.
  - assert (E : Zpos (Pos.iter xO x d) = Zpos q * 2 ^ 0).
    { rewrite iter_xO, Eq. replace (53 - D) with (Zpos d) by lia. lia. }
    rewrite (binary_round_aux_exact false _ q (Zneg d) 0 Hq ltac:(lia) E ltac:(lia)).
    now rewrite Z.add_0_r.
Qed.

(** The product with 1.5 of a float holding [x], when 3x < 2^53. *)
Lemma mul_1_50_exact x :
  3 * Zpos x < 2 ^ 53 ->
  exists q e,
    F64.mul (F64.of_uint64 (Zpos x)) F64.c1_50 = S754_finite false q e /\
    -53 <= e < 0 /\
    2 * Zpos q = 3 * Zpos x * 2 ^ (- e).
Proof.
  intros Hx.
  destruct (of_uint64_exact x ltac:(lia)) as (qx & Ex & Eqx & Hqx & Hdx).
  destruct (normalise (3 * x)%positive) as (q & Eq & Hq & Hd).
  { rewrite Pos2Z.inj_mul. exact Hx. }
  set (d := Zpos (digits2_pos x)) in *.
  set (D := Zpos (digits2_pos (3 * x))) in *.
  rewrite Pos2Z.inj_mul in Eq.
  assert (HdD : d + 1 <= D).
  { destruct (Z.le_gt_cases (d + 1) D) as [|Hlt]; [assumption|exfalso].
    pose proof (digits_bounds x) as [Hlo _]. fold d in Hlo.
    pose proof (digits_bounds (3 * x)%positive) as [_ Hhi].
    fold D in Hhi. rewrite Pos2Z.inj_mul in Hhi.
    assert (2 ^ D <= 2 ^ d) by (apply Z.pow_le_mono_r; lia).
    replace (2 ^ d) with (2 * 2 ^ (d - 1)) in *
      by (rewrite <- Z.pow_succ_r by lia; f_equal; lia).
    lia. }
  exists q, (D - 54). rewrite Ex. unfold F64.mul, F64.c1_50. cbn [SFmul xorb].
  split; [|split; [lia|]].
  - assert (E : Zpos (qx * 6755399441055744) = Zpos q * 2 ^ (D - d + 51)).
    { rewrite Pos2Z.inj_mul, Eq, Eqx.
      change (Zpos 6755399441055744) with (3 * 2 ^ 51).
      replace (D - d + 51) with ((53 - d) + 51 - (53 - D)) by lia.
      assert (H1 : 2 ^ (53 - d + 51) = 2 ^ (53 - D) * 2 ^ (53 - d + 51 - (53 - D))).
      { rewrite <- Z.pow_add_r by lia. f_equal. lia. }
      rewrite Z.pow_add_r in H1 by lia.
      transitivity (3 * Zpos x * (2 ^ (53 - d) * 2 ^ 51)); [ring|].
      rewrite H1. ring. }
    rewrite (binary_round_aux_exact false _ q (d - 53 + -52) (D - d + 51)
               Hq ltac:(lia) E ltac:(lia)).
    f_equal. lia.
  - rewrite Eq. replace (- (D - 54)) with (Z.succ (53 - D)) by lia.
    rewrite Z.pow_succ_r by lia. ring.
Qed.

(** [uint64(float64(x) * 1.50)] is the integer part of 3x/2 as long as
    3x < 2^53: nothing is rounded on the way. *)
Lemma scale_exact {conv : F64.Conversion} x :
  0 <= x -> 3 * x < 2 ^ 53 -> F64.scale x = 3 * x / 2.
Proof.
  intros H0 Hx. destruct x as [|x|x]; [reflexivity| |lia].
  destruct (mul_1_50_exact x Hx) as (q & e & E & He & Hq).
  unfold F64.scale. rewrite E. unfold F64.to_uint64, F64.trunc.
  destruct (Z.leb_spec 0 e) as [|_]; [lia|].
  assert (Hp : 0 < 2 ^ (- e - 1)) by (apply Z.pow_pos_nonneg; lia).
  assert (E2 : 2 ^ (- e) = 2 * 2 ^ (- e - 1)).
  { rewrite <- Z.pow_succ_r by lia. f_equal. lia. }
  assert (Eq : Zpos q = 3 * Zpos x * 2 ^ (- e - 1)) by (rewrite E2 in Hq; lia).
  assert (Ev : Zpos q / 2 ^ (- e) = 3 * Zpos x / 2).
  { rewrite Eq, E2. apply Z.div_mul_cancel_r; lia. }
  rewrite Ev.
  assert (Hr : 0 <= 3 * Zpos x / 2 < U64.modulus).
  { split; [apply Z.div_pos; lia|].
    apply Z.div_lt_upper_bound; [lia|]. unfold U64.modulus. lia. }
  destruct (Z.leb_spec 0 (3 * Zpos x / 2)), (Z.ltb_spec (3 * Zpos x / 2) U64.modulus);
    try lia. reflexivity.
Qed.

End F64Facts.

(** C2, as the code has it: where 3 times the total size and 3 times the
    inode count stay below 2^53 and 64 block sizes fit a [uint64],
    [FinalizeSizeContext] leaves the integer part of 1.5 times the inode
    count, and the integer part of 1.5 times the total size rounded up,
    after the scaling, to a multiple of 64 block sizes. *)
Theorem finalize_scales_then_aligns {conv : F64.Conversion} s :
  let e := self s in
  0 < BlockSize e -> 64 * BlockSize e < U64.modulus ->
  0 <= totalSize e -> 3 * totalSize e < 2 ^ 53 ->
  0 <= numInodes e -> 3 * numInodes e < 2 ^ 53 ->
  exists s',
    FinalizeSizeContext s = Returns nil s' /\
    numInodes (self s') = 3 * numInodes e / 2 /\
    totalSize (self s') = roundUp (3 * totalSize e / 2) (64 * BlockSize e) /\
    BlockSize (self s') = BlockSize e /\
    InodeSize (self s') = InodeSize e.
Proof.
  intros e Hb Hfit Ht0 Ht Hn0 Hn.
  assert (Ha : U64.mul 64 (BlockSize e) = 64 * BlockSize e).
  { apply wrap_small. unfold U64.inRange. lia. }
  eexists. split.
  { apply FinalizeSizeContext_run. fold e. rewrite Ha. lia. }
  cbn [self numInodes totalSize BlockSize InodeSize]. fold e.
  rewrite Ha, !F64Facts.scale_exact by assumption.
  repeat split.
  set (t := 3 * totalSize e / 2). set (a := 64 * BlockSize e) in *.
  assert (Hta : 0 <= t < 2 ^ 53).
  { subst t. split; [apply Z.div_pos; lia|]. apply Z.div_lt_upper_bound; lia. }
  destruct (Z.eqb_spec (t mod a) 0) as [E|E].
  - now rewrite roundUp_mod0 by (assumption || lia).
  - replace (U64.sub (U64.add t a) (t mod a)) with (U64.wrap (t + a - t mod a)) by u64_ring.
    rewrite roundUp_mod by (assumption || lia). apply wrap_small.
    pose proof (Z.mod_pos_bound t a ltac:(lia)) as Hr.
    unfold U64.inRange. split; [lia|].
    destruct (Z.lt_ge_cases t a) as [Hlt|Hge].
    + rewrite Z.mod_small by lia. lia.
    + unfold U64.modulus in *. lia.
Qed.

Lemma finalize_scales_then_aligns_witness :
  exists s',
    FinalizeSizeContext (conv := F64.amd64) (boot (mkExt4Fs 4096 256 600000 12)) = Returns nil s' /\
    numInodes (self s') = 18 /\ totalSize (self s') = 1048576.
Proof.
  destruct (finalize_scales_then_aligns (conv := F64.amd64) (boot (mkExt4Fs 4096 256 600000 12)))
    as (s' & E & Hn & Ht & _).
  - reflexivity.
  - reflexivity.
  - cbn; lia.
  - reflexivity.
  - cbn; lia.
  - reflexivity.
  - exists s'. split; [exact E|]. split; [rewrite Hn|rewrite Ht]; reflexivity.
Defined.

(** Counterexample to C2 as the spec states it, on the baseline: 11 inodes
    become 16, not 16.5. *)
Lemma finalize_truncates :
  exists s',
    FinalizeSizeContext (conv := F64.amd64) (boot (mkExt4Fs 4096 256 4864 11)) = Returns nil s' /\
    numInodes (self s') = 16 /\
    totalSize (self s') = 262144 /\
    ~ scaled_by_1_5 (mkExt4Fs 4096 256 4864 11) (self s').
Proof.
  eexists. split; [vm_compute; reflexivity|]. split; [reflexivity|]. split; [reflexivity|].
  intros [Hn _]. vm_compute in Hn. discriminate Hn.
Qed.

(** Above 2^53 the conversion to [float64] rounds: a total size of
    2^53 + 1 is scaled to 3 * 2^52, which is aligned already, while the
    integer part of 1.5 times the size is one more and would be aligned to
    the next multiple. *)
Lemma finalize_rounds_large_sizes :
  final (FinalizeSizeContext (conv := F64.amd64) (boot (mkExt4Fs 4096 256 (2 ^ 53 + 1) 12)))
  = Some (mkExt4Fs 4096 256 (3 * 2 ^ 52) 18) /\
  roundUp (3 * (2 ^ 53 + 1) / 2) (64 * 4096) = 3 * 2 ^ 52 + 64 * 4096.
Proof. split; vm_compute; reflexivity. Qed.

(** ** Formatting *)

Section FormatFacts.

Context {tool : Exec}.

(** When the tool fails, [MakeFileSystem] returns its error, after having
    slept 100 hours. *)
Lemma MakeFileSystem_failure file s :
  Run "mkfs.ext4" (mkfs_args (self s) file) <> nil ->
  exists s',
    MakeFileSystem file s = Returns (Run "mkfs.ext4" (mkfs_args (self s) file)) s' /\
    self s' = self s /\
    slept s' = slept s + 100 * Hour.
Proof.
  intros Herr. unfold MakeFileSystem. run_go. fold (mkfs_args (self s) file).
  destruct (Run "mkfs.ext4" (mkfs_args (self s) file)) eqn:E; [contradiction| |];
    cbn [is_nil negb]; run_go; eexists; repeat split.
Qed.

Lemma MakeFileSystem_success file s :
  Run "mkfs.ext4" (mkfs_args (self s) file) = nil ->
  exists s', MakeFileSystem file s = Returns nil s' /\ self s' = self s /\ slept s' = slept s.
Proof.
  intros Herr. unfold MakeFileSystem. run_go. fold (mkfs_args (self s) file).
  rewrite Herr. cbn [is_nil negb]. run_go. eexists; repeat split.
Qed.

(** The sibling returns at once, whatever the tool reports. *)
Lemma MakeBasicFileSystem_run file s :
  MakeBasicFileSystem file s = Returns (Run "mkfs.ext4" ["-F"; Name file]%string) s.
Proof. reflexivity. Qed.

End FormatFacts.

(** C5, which the code breaks: when [mkfs.ext4] exits with status 1,
    [MakeFileSystem] hands the error back only after [time.Sleep] has
    taken 100 hours (360000000000000 ns), while [MakeBasicFileSystem]
    returns the same failure without sleeping. *)
Theorem mkfs_failure_sleeps :
  (exists s',
     MakeFileSystem (tool := failing_tool) (mkFile "/tmp/layer.img")
       (boot (mkExt4Fs 4096 256 262144 16)) = Returns (ExitError 1) s' /\
     slept s' = 360000000000000) /\
  (exists s',
     MakeBasicFileSystem (tool := failing_tool) (mkFile "/tmp/layer.img")
       (boot (mkExt4Fs 4096 256 262144 16)) = Returns (ExitError 1) s' /\
     slept s' = 0).
Proof. split; eexists; (split; [vm_compute; reflexivity|reflexivity]). Qed.

(** * Further properties of the code *)

(** ** [alignN] *)

Lemma roundUp_lt n d : 0 < d -> roundUp n d < n + d.
Proof.
  intros Hd. destruct (Z.eq_dec (n mod d) 0) as [E|E].
  - rewrite roundUp_mod0; auto; lia.
  - rewrite roundUp_mod; auto. pose proof (Z.mod_pos_bound n d Hd). lia.
Qed.

(** X1: without wrap-around [alignN] returns the least multiple of the
    alignment that is not below its argument. *)
Theorem alignN_least_multiple n d :
  U64.inRange n -> 0 < d -> roundUp n d < U64.modulus ->
  exists a,
    alignN n d = Ok a /\
    a mod d = 0 /\ n <= a < n + d /\
    (forall m, n <= m -> m mod d = 0 -> a <= m).
Proof.
  intros Hn Hd Hfit. exists (roundUp n d).
  pose proof (roundUp_ge n d Hd) as Hge. pose proof (roundUp_lt n d Hd) as Hlt.
  split.
  - rewrite (alignN_spec n d Hn Hd). f_equal. apply wrap_small.
    unfold U64.inRange in *. lia.
  - split; [apply roundUp_multiple|]. split; [lia|].
    intros m Hm Hmd.
    pose proof (roundUp_multiple n d) as Ha.
    apply Z.mod_divide in Ha; [|lia]. apply Z.mod_divide in Hmd; [|lia].
    destruct Ha as [ka Ea]. destruct Hmd as [km Em].
    rewrite Ea in *. subst m.
    assert (ka < km + 1) by (apply (Z.mul_lt_mono_pos_r d); lia).
    apply Z.mul_le_mono_nonneg_r; lia.
Qed.

Lemma alignN_least_multiple_witness :
  exists a, alignN 10000 4096 = Ok a /\ a mod 4096 = 0 /\ 10000 <= a < 10000 + 4096.
Proof.
  destruct (alignN_least_multiple 10000 4096) as (a & E & Hm & Hb & _).
  - unfold U64.inRange, U64.modulus. lia.
  - lia.
  - reflexivity.
  - exists a. auto.
Defined.

(** X2: aligning twice is aligning once. *)
Theorem alignN_idempotent n d :
  U64.inRange n -> 0 < d -> roundUp n d < U64.modulus ->
  exists a, alignN n d = Ok a /\ alignN a d = Ok a.
Proof.
  intros Hn Hd Hfit. exists (roundUp n d).
  pose proof (roundUp_ge n d Hd) as Hge.
  assert (Hr : U64.inRange (roundUp n d)) by (unfold U64.inRange in *; lia).
  split.
  - rewrite (alignN_spec n d Hn Hd). f_equal. now apply wrap_small.
  - unfold alignN, rem64. destruct (Z.eqb_spec d 0); [lia|].
    rewrite roundUp_multiple. reflexivity.
Qed.

Lemma alignN_idempotent_witness :
  exists a, alignN 61 4096 = Ok a /\ alignN a 4096 = Ok a.
Proof.
  apply (alignN_idempotent 61 4096).
  - unfold U64.inRange, U64.modulus. lia.
  - lia.
  - reflexivity.
Defined.

(** X3: when the next multiple of the alignment does not fit 64 bits the sum in
    [alignN] wraps: the value returned is 2^64 less than the multiple, and
    so below the argument. *)
Theorem alignN_wraps_below n d :
  U64.inRange n -> 0 < d < U64.modulus -> U64.modulus <= roundUp n d ->
  exists a, alignN n d = Ok a /\ a = roundUp n d - U64.modulus /\ 0 <= a < n.
Proof.
  intros Hn Hd Hover.
  pose proof (roundUp_lt n d ltac:(lia)) as Hlt.
  exists (roundUp n d - U64.modulus).
  unfold U64.inRange in Hn. split; [|split; [reflexivity|lia]].
  rewrite (alignN_spec n d Hn ltac:(lia)). f_equal.
  unfold U64.wrap. symmetry. apply (Z.mod_unique _ _ 1); lia.
Qed.

Lemma alignN_wraps_below_witness :
  exists a, alignN (2 ^ 64 - 1) 4096 = Ok a /\ a = 0.
Proof.
  destruct (alignN_wraps_below (2 ^ 64 - 1) 4096) as (a & E & Ha & _).
  - unfold U64.inRange, U64.modulus. lia.
  - unfold U64.modulus. lia.
  - vm_compute. discriminate.
  - exists a. split; [exact E|]. rewrite Ha. reflexivity.
Defined.

Lemma roundUp_mono n m d : 0 < d -> n <= m -> roundUp n d <= roundUp m d.
Proof.
  intros Hd Hnm. unfold roundUp, ceil_div.
  apply Z.mul_le_mono_nonneg_r; [lia|]. apply Z.div_le_mono; lia.
Qed.

(** X4: without wrap-around a larger argument never aligns to a smaller
    value. *)
Theorem alignN_monotone n m d :
  0 <= n <= m -> 0 < d -> roundUp m d < U64.modulus ->
  exists a b, alignN n d = Ok a /\ alignN m d = Ok b /\ a <= b.
Proof.
  intros Hnm Hd Hfit.
  pose proof (roundUp_mono n m d Hd ltac:(lia)) as Hmono.
  pose proof (roundUp_ge n d Hd) as Hn. pose proof (roundUp_ge m d Hd) as Hm.
  exists (roundUp n d), (roundUp m d).
  rewrite !alignN_spec by (unfold U64.inRange; lia).
  rewrite !wrap_small by (unfold U64.inRange; lia). auto.
Qed.

Lemma alignN_monotone_witness :
  exists a b, alignN 100 4096 = Ok a /\ alignN 5000 4096 = Ok b /\ a <= b.
Proof.
  apply (alignN_monotone 100 5000 4096).
  - lia.
  - lia.
  - reflexivity.
Defined.

(** ** What the methods leave alone *)

Ltac frame_done :=
  cbn [reframe self logged slept boot app]; rewrite ?Z.add_0_r, ?app_nil_r; reflexivity.

Lemma invoke_reframe c s : invoke c s = reframe s (invoke c (boot (self s))).
Proof.
  unfold boot.
  destruct c as [n sz|n|src dst|src dst|n ma mi|n ma mi|n|n|n a d f]; cbn [invoke];
    try (run_go; frame_done).
  - run_go. destruct (alignN sz (BlockSize (self s))); frame_done.
  - run_go. destruct (Z.of_nat (String.length dst) >? 60); run_go; [|frame_done].
    destruct (alignN (len64 dst) (BlockSize (self s))); frame_done.
Qed.

Lemma invoke_appends c s err s' :
  invoke c s = Returns err s' ->
  exists line, logged s' = logged s ++ [line] /\ slept s' = slept s.
Proof.
  intros E. rewrite invoke_reframe in E. unfold boot in E.
  destruct c as [n sz|n|src dst|src dst|n ma mi|n ma mi|n|n|n a d f]; cbn [invoke] in E;
    revert E; run_go;
    try (intros E; injection E as _ <-; eexists; split; [reflexivity|apply Z.add_0_r]).
  - destruct (alignN sz (BlockSize (self s))); cbn [reframe]; intros E; [|discriminate].
    injection E as _ <-. eexists; split; [reflexivity|apply Z.add_0_r].
  - destruct (Z.of_nat (String.length dst) >? 60); run_go.
    + destruct (alignN (len64 dst) (BlockSize (self s))); cbn [reframe]; intros E;
        [|discriminate].
      injection E as _ <-. eexists; split; [reflexivity|apply Z.add_0_r].
    + intros E; injection E as _ <-. eexists; split; [reflexivity|apply Z.add_0_r].
Qed.

(** X5: every [Calc*] method reads the receiver only: what was logged before
    stays in front, one line is appended, and nothing is slept. *)
Theorem invoke_frame c s :
  invoke c s = reframe s (invoke c (boot (self s))) /\
  (forall err s', invoke c s = Returns err s' ->
     exists line, logged s' = logged s ++ [line] /\ slept s' = slept s).
Proof.
  split; [apply invoke_reframe|]. intros err s'. apply invoke_appends.
Qed.

Lemma reframe_reframe {A} s s1 (o : outcome A) :
  reframe s (reframe s1 o)
  = reframe (mkStore (self s1) (logged s ++ logged s1) (slept s + slept s1)) o.
Proof.
  destruct o as [a s2|r]; cbn [reframe self logged slept]; [|reflexivity].
  now rewrite app_assoc, Z.add_assoc.
Qed.

Lemma final_reframe {A} s (o : outcome A) : final (reframe s o) = final o.
Proof. destruct o; reflexivity. Qed.

Lemma invokeAll_frame cs : forall s,
  invokeAll cs s = reframe s (invokeAll cs (boot (self s))).
Proof.
  induction cs as [|c cs IH]; intros s; cbn [invokeAll].
  - unfold ret, boot. cbn [reframe self logged slept]. destruct s as [e l z].
    cbn [self logged slept]. now rewrite app_nil_r, Z.add_0_r.
  - unfold bind. rewrite (invoke_reframe c s).
    destruct (invoke c (boot (self s))) as [a s1|r]; cbn [reframe]; [|reflexivity].
    rewrite IH. cbn [self]. rewrite (IH s1), reframe_reframe. reflexivity.
Qed.

(** The receiver a list of calls leaves depends on the receiver it starts
    from, not on the log or the clock. *)
Lemma invokeAll_final cs s :
  final (invokeAll cs s) = final (invokeAll cs (boot (self s))).
Proof. rewrite invokeAll_frame. apply final_reframe. Qed.

Lemma invokeAll_log cs : forall s0 s,
  invokeAll cs s0 = Returns tt s ->
  List.length (logged s) = (List.length (logged s0) + List.length cs)%nat /\
  slept s = slept s0.
Proof.
  induction cs as [|c cs IH]; intros s0 s E; cbn [invokeAll] in E.
  - injection E as <-. cbn [List.length]. split; [lia|reflexivity].
  - unfold bind in E. destruct (invoke c s0) as [err s1|r] eqn:E1; [|discriminate].
    destruct (invoke_appends c s0 _ _ E1) as (line & Hl & Hs).
    destruct (IH _ _ E) as (Hlen & Hslept).
    rewrite Hlen, Hl, Hslept, Hs, length_app. cbn [List.length]. split; [lia|reflexivity].
Qed.

(** X6: a session logs one line for [InitSizeContext] and one per call, and
    never sleeps. *)
Theorem session_log blockSize inodeSize cs s :
  session blockSize inodeSize cs = Returns tt s ->
  List.length (logged s) = S (List.length cs) /\ slept s = 0.
Proof.
  unfold session, bind. rewrite InitSizeContext_run. cbv zeta. intros E.
  apply invokeAll_log in E. exact E.
Qed.

Lemma session_log_witness :
  exists s, session 4096 256 [Dir "etc"; FIFOPipe "p"] = Returns tt s /\
            List.length (logged s) = 3%nat /\ slept s = 0.
Proof.
  eexists. split; [vm_compute; reflexivity|].
  eapply (session_log 4096 256 [Dir "etc"; FIFOPipe "p"]). vm_compute. reflexivity.
Defined.

(** ** Whole sessions *)

Lemma wf_step e b n :
  wf_fs e -> wf_fs (mkExt4Fs (BlockSize e) (InodeSize e) (U64.wrap b) (U64.wrap n)).
Proof.
  intros (Hb & Hi & _ & _). repeat split; try apply Hb; try apply Hi; apply wrap_inRange.
Qed.

(** The receiver after a list of calls that returns: the sums of the
    per-kind accounting, wrapped to 64 bits. *)
Lemma invokeAll_exact cs : forall s s',
  wf_fs (self s) -> Forall wf_call cs ->
  invokeAll cs s = Returns tt s' ->
  let e := self s in
  self s' = mkExt4Fs (BlockSize e) (InodeSize e)
              (U64.wrap (totalSize e + session_bytes (BlockSize e) (InodeSize e) cs))
              (U64.wrap (numInodes e + session_inodes cs)).
Proof.
  induction cs as [|c cs IH]; intros s s' Hwf Hcs E e; subst e; cbn [invokeAll] in E.
  - injection E as <-. unfold session_bytes, session_inodes. cbn [map sumZ fold_right].
    destruct Hwf as (_ & _ & Ht & Hn). rewrite !Z.add_0_r, !wrap_small by assumption.
    destruct (self s); reflexivity.
  - unfold bind in E. destruct (invoke c s) as [err s1|r] eqn:E1; [|discriminate].
    inversion Hcs as [|c' cs' Hc Hcs']; subst.
    destruct (invoke_exact c s _ _ Hwf Hc E1) as (_ & Hs1).
    assert (Hwf1 : wf_fs (self s1)) by (rewrite Hs1; now apply wf_step).
    rewrite (IH _ _ Hwf1 Hcs' E), Hs1. cbn [BlockSize InodeSize totalSize numInodes].
    unfold session_bytes, session_inodes, sumZ. cbn [map fold_right].
    f_equal; apply eqm_wrap; unfold U64.wrap; rewrite ?(Zmod_eqm U64.modulus);
      match goal with |- eqm _ ?x ?y => replace x with y by ring; reflexivity end.
Qed.

(** X7: the receiver at the end of a session, in closed form: the baseline plus
    the bytes and inodes of the calls, wrapped to 64 bits; exactly the sums
    when they fit. *)
Theorem session_closed_form blockSize inodeSize cs :
  0 < blockSize < U64.modulus -> U64.inRange inodeSize -> Forall wf_call cs ->
  let base := Z.max (U64.add 2048 (U64.mul 11 inodeSize)) blockSize in
  exists s,
    session blockSize inodeSize cs = Returns tt s /\
    totalSize (self s) = U64.wrap (base + session_bytes blockSize inodeSize cs) /\
    numInodes (self s) = U64.wrap (11 + session_inodes cs) /\
    (base + session_bytes blockSize inodeSize cs < U64.modulus ->
     totalSize (self s) = base + session_bytes blockSize inodeSize cs) /\
    (11 + session_inodes cs < U64.modulus ->
     numInodes (self s) = 11 + session_inodes cs).
Proof.
  intros Hb Hi Hcs base.
  destruct (session_returns blockSize inodeSize cs ltac:(lia)) as (s & E & _).
  exists s. split; [exact E|].
  assert (Hsum : 0 <= session_bytes blockSize inodeSize cs /\ 0 <= session_inodes cs).
  { clear E. unfold session_bytes, session_inodes, sumZ.
    induction Hcs as [|c cs' Hc _ IH]; cbn [map fold_right]; [lia|].
    pose proof (spec_bytes_nonneg blockSize inodeSize c ltac:(lia) (proj1 Hi) Hc).
    pose proof (spec_inodes_nonneg c). lia. }
  unfold session, bind in E. rewrite InitSizeContext_run in E. cbv zeta in E.
  apply invokeAll_exact in E; [|cbn [self boot configure BlockSize InodeSize]|exact Hcs].
  - cbv zeta in E. cbn [self boot configure BlockSize InodeSize totalSize numInodes] in E.
    rewrite maxU64_max in E. fold base in E. rewrite E.
    cbn [totalSize numInodes].
    assert (Hbase : 0 <= base).
    { subst base. pose proof (add_inRange 2048 (U64.mul 11 inodeSize)) as [H0 _]. lia. }
    repeat split; intros; apply wrap_small; unfold U64.inRange; lia.
  - unfold wf_fs. cbn [BlockSize InodeSize totalSize numInodes].
    split; [unfold U64.inRange; lia|]. split; [exact Hi|]. split.
    + rewrite maxU64_max. pose proof (add_inRange 2048 (U64.mul 11 inodeSize)).
      unfold U64.inRange in *. lia.
    + unfold U64.inRange, U64.modulus. lia.
Qed.

Lemma session_closed_form_witness :
  exists s,
    session 4096 256 [Dir "etc"; RegFile "etc/passwd" 10000; Hardlink "p" "etc/passwd"]
      = Returns tt s /\
    totalSize (self s) = 4864 + (256 + 3 * 4096) + 16640 + 4096 /\
    numInodes (self s) = 13.
Proof.
  destruct (session_closed_form 4096 256
              [Dir "etc"; RegFile "etc/passwd" 10000; Hardlink "p" "etc/passwd"])
    as (s & E & _ & _ & Ht & Hn).
  - unfold U64.modulus. lia.
  - unfold U64.inRange, U64.modulus. lia.
  - repeat constructor; unfold U64.inRange, U64.modulus; lia.
  - exists s. split; [exact E|]. split.
    + rewrite Ht; reflexivity.
    + rewrite Hn; reflexivity.
Defined.

(** *** When a session panics *)

Lemma invoke_panics_iff c s :
  invoke c s = Panics DivideByZero <->
  BlockSize (self s) = 0 /\ needs_align c = true.
Proof.
  split.
  - intros E. destruct (Z.eq_dec (BlockSize (self s)) 0) as [Hz|Hnz].
    + split; [exact Hz|].
      destruct c as [n sz|n|src dst|src dst|n ma mi|n ma mi|n|n|n a d f];
        cbn [needs_align]; try reflexivity; cbn [invoke] in E.
      * rewrite CalcDirSize_run in E. discriminate.
      * destruct (Nat.ltb_spec 60 (String.length dst)) as [Hl|Hl]; [reflexivity|].
        rewrite (CalcSymlinkSize_inline _ _ _ Hl) in E. discriminate.
      * rewrite CalcHardlinkSize_run in E. discriminate.
      * rewrite CalcCharDeviceSize_run in E. discriminate.
      * rewrite CalcBlockDeviceSize_run in E. discriminate.
      * rewrite CalcFIFOPipeSize_run in E. discriminate.
      * rewrite CalcSocketSize_run in E. discriminate.
      * rewrite CalcAddExAttrSize_run in E. discriminate.
    + destruct (invoke_returns c s Hnz) as (s' & E' & _). congruence.
  - intros (Hz & Hc).
    destruct c as [n sz|n|src dst|src dst|n ma mi|n ma mi|n|n|n a d f];
      cbn [needs_align] in Hc; try discriminate; cbn [invoke].
    + apply CalcRegFileSize_fault. rewrite Hz. reflexivity.
    + apply Nat.ltb_lt in Hc. apply CalcSymlinkSize_fault; [exact Hc|].
      rewrite Hz. reflexivity.
Qed.

Lemma invokeAll_panics_iff cs : forall s,
  invokeAll cs s = Panics DivideByZero <->
  BlockSize (self s) = 0 /\ existsb needs_align cs = true.
Proof.
  induction cs as [|c cs IH]; intros s; cbn [invokeAll existsb].
  - split; [discriminate|]. intros (_ & H). discriminate.
  - unfold bind. destruct (invoke c s) as [err s1|r] eqn:E1.
    + destruct (invoke_keeps _ _ _ _ E1) as (Hb & _). rewrite IH, Hb.
      assert (Hc : needs_align c = true -> BlockSize (self s) <> 0).
      { intros Hc Hz. assert (P : invoke c s = Panics DivideByZero)
          by (apply invoke_panics_iff; auto). congruence. }
      split.
      * intros (Hz & Hex). split; [exact Hz|]. rewrite Hex. apply orb_true_r.
      * intros (Hz & Hex). split; [exact Hz|].
        destruct (needs_align c); [exfalso; now apply Hc|exact Hex].
    + destruct r. apply invoke_panics_iff in E1 as (Hz & Hc). rewrite Hc.
      split; auto.
Qed.

Lemma session_panic_cases blockSize inodeSize cs :
  session blockSize inodeSize cs = Panics DivideByZero <->
  blockSize = 0 /\ existsb needs_align cs = true.
Proof.
  unfold session, bind. rewrite InitSizeContext_run. cbv zeta.
  rewrite invokeAll_panics_iff. reflexivity.
Qed.

(** X8: a session panics exactly when the block size is zero and one of the
    calls reaches [alignN]: a regular file, or a symlink whose target is
    longer than 60 bytes.  Every other session returns. *)
Theorem session_panics_iff blockSize inodeSize cs :
  (session blockSize inodeSize cs = Panics DivideByZero <->
   blockSize = 0 /\ existsb needs_align cs = true) /\
  (blockSize <> 0 \/ existsb needs_align cs = false ->
   exists s, session blockSize inodeSize cs = Returns tt s).
Proof.
  pose proof (session_panic_cases blockSize inodeSize cs) as Hiff.
  split; [exact Hiff|].
  intros Hok. destruct (session blockSize inodeSize cs) as [[] s|[]] eqn:E.
  - now exists s.
  - exfalso. destruct (proj1 Hiff eq_refl) as (Hz & Hex).
    destruct Hok as [Hnz|Hno]; congruence.
Qed.

Lemma session_panics_iff_witness :
  exists s, session 0 256 [Dir "etc"; Symlink "sh" "busybox"; Hardlink "a" "b"] = Returns tt s.
Proof.
  apply (session_panics_iff 0 256 [Dir "etc"; Symlink "sh" "busybox"; Hardlink "a" "b"]).
  right. reflexivity.
Defined.

(** *** Order of the calls, and calls that count for nothing *)

Lemma sumZ_map_perm (f : call -> Z) cs cs' :
  Permutation cs cs' -> sumZ (map f cs) = sumZ (map f cs').
Proof.
  unfold sumZ. induction 1; cbn [map fold_right]; lia.
Qed.

Lemma existsb_perm (f : call -> bool) cs cs' :
  Permutation cs cs' -> existsb f cs = existsb f cs'.
Proof.
  induction 1 as [|c l l' _ IH|c1 c2 l|l1 l2 l3 _ IH1 _ IH2]; cbn [existsb].
  - reflexivity.
  - now rewrite IH.
  - destruct (f c1), (f c2); reflexivity.
  - congruence.
Qed.

(** The receiver of a session, or its panic, as a function of the
    configuration and the calls. *)
Lemma session_final blockSize inodeSize cs :
  U64.inRange blockSize -> U64.inRange inodeSize -> Forall wf_call cs ->
  final (session blockSize inodeSize cs) =
  if (blockSize =? 0) && existsb needs_align cs then None
  else Some (mkExt4Fs blockSize inodeSize
               (U64.wrap (Z.max (U64.add 2048 (U64.mul 11 inodeSize)) blockSize
                          + session_bytes blockSize inodeSize cs))
               (U64.wrap (11 + session_inodes cs))).
Proof.
  intros Hb Hi Hcs.
  destruct (session blockSize inodeSize cs) as [[] s|[]] eqn:E.
  - assert (Hno : (blockSize =? 0) && existsb needs_align cs = false).
    { destruct ((blockSize =? 0) && existsb needs_align cs) eqn:Hp; [|reflexivity].
      apply andb_true_iff in Hp as (Hz & Hex). apply Z.eqb_eq in Hz.
      pose proof (proj2 (session_panic_cases blockSize inodeSize cs) (conj Hz Hex)).
      congruence. }
    rewrite Hno. cbn [final]. f_equal.
    unfold session, bind in E. rewrite InitSizeContext_run in E. cbv zeta in E.
    apply invokeAll_exact in E; [|cbn [self boot configure BlockSize InodeSize]|exact Hcs].
    + cbv zeta in E. cbn [self boot configure BlockSize InodeSize totalSize numInodes] in E.
      rewrite maxU64_max in E. exact E.
    + unfold wf_fs. cbn [BlockSize InodeSize totalSize numInodes].
      split; [exact Hb|]. split; [exact Hi|]. split.
      * rewrite maxU64_max. pose proof (add_inRange 2048 (U64.mul 11 inodeSize)).
        unfold U64.inRange in *. lia.
      * unfold U64.inRange, U64.modulus. lia.
  - destruct (proj1 (session_panic_cases blockSize inodeSize cs) E) as (Hz & Hex).
    rewrite Hex, Hz. reflexivity.
Qed.

(** X9: the order of the calls does not matter: two sessions over the same
    calls in any order leave the same receiver, or both panic. *)
Theorem session_order_irrelevant blockSize inodeSize cs cs' :
  U64.inRange blockSize -> U64.inRange inodeSize -> Forall wf_call cs ->
  Permutation cs cs' ->
  final (session blockSize inodeSize cs) = final (session blockSize inodeSize cs').
Proof.
  intros Hb Hi Hcs Hp.
  assert (Hcs' : Forall wf_call cs') by (eapply Permutation_Forall; eassumption).
  rewrite !session_final by assumption.
  unfold session_bytes, session_inodes.
  rewrite (existsb_perm needs_align _ _ Hp).
  rewrite (sumZ_map_perm (spec_bytes blockSize inodeSize) _ _ Hp).
  rewrite (sumZ_map_perm spec_inodes _ _ Hp). reflexivity.
Qed.

Lemma session_order_irrelevant_witness :
  final (session 4096 256 [Hardlink "b" "a"; RegFile "a" 10000; Dir "d"]) =
  final (session 4096 256 [Dir "d"; RegFile "a" 10000; Hardlink "b" "a"]).
Proof.
  apply session_order_irrelevant.
  - unfold U64.inRange, U64.modulus. lia.
  - unfold U64.inRange, U64.modulus. lia.
  - repeat constructor; unfold U64.inRange, U64.modulus; lia.
  - apply perm_trans with [RegFile "a" 10000; Hardlink "b" "a"; Dir "d"];
      [apply perm_swap|].
    apply perm_trans with [RegFile "a" 10000; Dir "d"; Hardlink "b" "a"];
      [apply perm_skip, perm_swap|apply perm_swap].
Defined.

(** X10: extended attributes count for nothing: dropping every
    [CalcAddExAttrSize] call from a sequence leaves the same receiver. *)
Theorem exattr_transparent cs : forall s,
  final (invokeAll cs s) =
  final (invokeAll (filter (fun c => negb (is_exattr c)) cs) s).
Proof.
  induction cs as [|c cs IH]; intros s; [reflexivity|].
  destruct (is_exattr c) eqn:Hx; cbn [filter]; rewrite Hx; cbn [negb].
  - destruct c; try discriminate. cbn [invokeAll invoke]. unfold bind.
    rewrite CalcAddExAttrSize_run. rewrite invokeAll_final. cbn [self].
    rewrite <- invokeAll_final. apply IH.
  - cbn [invokeAll]. unfold bind. destruct (invoke c s) as [err s1|r]; [apply IH|reflexivity].
Qed.

(** X11: the inode count of a session that does not wrap: 11 reserved inodes
    plus one per call other than hardlinks and extended attributes, so
    between 11 and 11 plus the number of calls. *)
Theorem session_inode_bounds blockSize inodeSize cs :
  0 < blockSize < U64.modulus -> U64.inRange inodeSize -> Forall wf_call cs ->
  11 + Z.of_nat (List.length cs) < U64.modulus ->
  exists s,
    session blockSize inodeSize cs = Returns tt s /\
    numInodes (self s) = 11 + session_inodes cs /\
    11 <= numInodes (self s) <= 11 + Z.of_nat (List.length cs).
Proof.
  intros Hb Hi Hcs Hlen.
  assert (Hsum : 0 <= session_inodes cs <= Z.of_nat (List.length cs)).
  { clear. unfold session_inodes, sumZ.
    induction cs as [|c cs IH]; cbn [map fold_right List.length]; [lia|].
    rewrite Nat2Z.inj_succ. destruct c; cbn [spec_inodes]; lia. }
  assert (Hno : (blockSize =? 0) && existsb needs_align cs = false).
  { destruct (Z.eqb_spec blockSize 0); [lia|reflexivity]. }
  pose proof (session_final blockSize inodeSize cs
                ltac:(unfold U64.inRange; lia) Hi Hcs) as Hf.
  rewrite Hno in Hf.
  destruct (session blockSize inodeSize cs) as [[] s|r]; [|discriminate].
  exists s. split; [reflexivity|]. unfold final in Hf.
  assert (Hself := f_equal (fun o => match o with Some e => numInodes e | None => 0 end) Hf).
  cbv beta iota in Hself. rewrite Hself. cbn [numInodes].
  rewrite wrap_small by (unfold U64.inRange; lia). lia.
Qed.

Lemma session_inode_bounds_witness :
  exists s,
    session 4096 256 [Dir "d"; Hardlink "b" "a"; ExAttr "d" "user.k" [] 0] = Returns tt s /\
    numInodes (self s) = 12.
Proof.
  destruct (session_inode_bounds 4096 256
              [Dir "d"; Hardlink "b" "a"; ExAttr "d" "user.k" [] 0])
    as (s & E & Hn & _).
  - unfold U64.modulus. lia.
  - unfold U64.inRange, U64.modulus. lia.
  - repeat constructor.
  - reflexivity.
  - exists s. split; [exact E|]. rewrite Hn. reflexivity.
Defined.

(** ** Regular files *)

(** X12: without wrap-around the bytes accounted for a regular file cover the
    file: the total grows by at least the file size plus one inode and one
    block, and by less than one block more than that. *)
Theorem regfile_covers_size fileName fileSize s :
  wf_fs (self s) -> 0 <= fileSize -> 0 < BlockSize (self s) ->
  let e := self s in
  totalSize e + InodeSize e + 2 * BlockSize e + fileSize <= U64.modulus ->
  exists s',
    CalcRegFileSize fileName fileSize s = Returns nil s' /\
    totalSize e + InodeSize e + BlockSize e + fileSize <= totalSize (self s') /\
    totalSize (self s') < totalSize e + InodeSize e + 2 * BlockSize e + fileSize.
Proof.
  intros Hwf Hsz Hb e Hfit. subst e.
  assert (Hwf' := Hwf). destruct Hwf' as (Hbs & His & Ht & Hn).
  unfold U64.inRange in *.
  assert (Hc : wf_call (RegFile fileName fileSize)) by (cbn [wf_call]; unfold U64.inRange; lia).
  destruct (invoke_spec _ s Hwf Hc Hb) as (s' & E & Hs'). cbv zeta in Hs'.
  exists s'. split; [exact E|]. rewrite Hs'. cbn [totalSize spec_bytes].
  pose proof (roundUp_ge fileSize (BlockSize (self s)) Hb).
  pose proof (roundUp_lt fileSize (BlockSize (self s)) Hb).
  rewrite wrap_small by (unfold U64.inRange; lia). lia.
Qed.

Lemma regfile_covers_size_witness :
  exists s',
    CalcRegFileSize "a" 10000 (boot (mkExt4Fs 4096 256 4864 11)) = Returns nil s' /\
    4864 + 256 + 4096 + 10000 <= totalSize (self s').
Proof.
  destruct (regfile_covers_size "a" 10000 (boot (mkExt4Fs 4096 256 4864 11)))
    as (s' & E & Hlo & _).
  - unfold wf_fs, U64.inRange, U64.modulus. cbn. lia.
  - lia.
  - cbn. lia.
  - cbn. unfold U64.modulus. lia.
  - exists s'. split; [exact E|exact Hlo].
Defined.

(** X13: without wrap-around a larger file never costs less. *)
Theorem regfile_monotone name1 name2 size1 size2 s :
  wf_fs (self s) -> 0 <= size1 <= size2 -> 0 < BlockSize (self s) ->
  let e := self s in
  totalSize e + InodeSize e + 2 * BlockSize e + size2 <= U64.modulus ->
  exists s1 s2,
    CalcRegFileSize name1 size1 s = Returns nil s1 /\
    CalcRegFileSize name2 size2 s = Returns nil s2 /\
    totalSize (self s1) <= totalSize (self s2).
Proof.
  intros Hwf Hsz Hb e Hfit. subst e.
  assert (Hwf' := Hwf). destruct Hwf' as (Hbs & His & Ht & Hn).
  unfold U64.inRange in *.
  assert (Hc1 : wf_call (RegFile name1 size1)) by (cbn [wf_call]; unfold U64.inRange; lia).
  assert (Hc2 : wf_call (RegFile name2 size2)) by (cbn [wf_call]; unfold U64.inRange; lia).
  destruct (invoke_spec _ s Hwf Hc1 Hb) as (s1 & E1 & Hs1).
  destruct (invoke_spec _ s Hwf Hc2 Hb) as (s2 & E2 & Hs2).
  cbv zeta in Hs1, Hs2.
  exists s1, s2. split; [exact E1|]. split; [exact E2|].
  rewrite Hs1, Hs2. cbn [totalSize spec_bytes].
  pose proof (roundUp_mono size1 size2 (BlockSize (self s)) Hb ltac:(lia)).
  pose proof (roundUp_ge size1 (BlockSize (self s)) Hb).
  pose proof (roundUp_lt size2 (BlockSize (self s)) Hb).
  rewrite !wrap_small by (unfold U64.inRange; lia). lia.
Qed.

Lemma regfile_monotone_witness :
  exists s1 s2,
    CalcRegFileSize "a" 1 (boot (mkExt4Fs 4096 256 4864 11)) = Returns nil s1 /\
    CalcRegFileSize "b" 4097 (boot (mkExt4Fs 4096 256 4864 11)) = Returns nil s2 /\
    totalSize (self s1) <= totalSize (self s2).
Proof.
  apply (regfile_monotone "a" "b" 1 4097 (boot (mkExt4Fs 4096 256 4864 11))).
  - unfold wf_fs, U64.inRange, U64.modulus. cbn. lia.
  - lia.
  - cbn. lia.
  - cbn. unfold U64.modulus. lia.
Defined.

(** ** Finalization, further *)

(** [FinalizeSizeContext] on small values, where [float64] is exact. *)
Lemma finalize_small {conv : F64.Conversion} s :
  let e := self s in
  0 < BlockSize e -> 64 * BlockSize e < U64.modulus ->
  0 <= totalSize e -> 3 * totalSize e < 2 ^ 53 ->
  0 <= numInodes e -> 3 * numInodes e < 2 ^ 53 ->
  exists s',
    FinalizeSizeContext s = Returns nil s' /\
    self s' = mkExt4Fs (BlockSize e) (InodeSize e)
                (roundUp (3 * totalSize e / 2) (64 * BlockSize e))
                (3 * numInodes e / 2) /\
    slept s' = slept s.
Proof.
  intros e Hb Hfit Ht0 Ht Hn0 Hn.
  assert (Ha : U64.mul 64 (BlockSize e) = 64 * BlockSize e).
  { apply wrap_small. unfold U64.inRange. lia. }
  eexists. split.
  { apply FinalizeSizeContext_run. fold e. rewrite Ha. lia. }
  cbn [self slept]. fold e. split; [|reflexivity].
  rewrite Ha, !F64Facts.scale_exact by assumption. f_equal.
  set (t := 3 * totalSize e / 2). set (a := 64 * BlockSize e) in *.
  assert (Hta : 0 <= t < 2 ^ 53).
  { subst t. split; [apply Z.div_pos; lia|]. apply Z.div_lt_upper_bound; lia. }
  destruct (Z.eqb_spec (t mod a) 0) as [E|E].
  - now rewrite roundUp_mod0 by (assumption || lia).
  - replace (U64.sub (U64.add t a) (t mod a)) with (U64.wrap (t + a - t mod a)) by u64_ring.
    rewrite roundUp_mod by (assumption || lia). apply wrap_small.
    pose proof (Z.mod_pos_bound t a ltac:(lia)) as Hr.
    unfold U64.inRange. split; [lia|].
    destruct (Z.lt_ge_cases t a) as [Hlt|Hge].
    + rewrite Z.mod_small by lia. lia.
    + unfold U64.modulus in *. lia.
Qed.

Lemma roundUp_pos t a : 0 < t -> 0 < a -> a <= roundUp t a.
Proof.
  intros Ht Ha. pose proof (roundUp_ge t a Ha) as Hge.
  pose proof (roundUp_multiple t a) as Hm. apply Z.mod_divide in Hm; [|lia].
  destruct Hm as [k Ek]. rewrite Ek in *. assert (0 < k) by nia. nia.
Qed.

(** X14: on small values finalization over-provisions and never shrinks: the
    final size is the first multiple of 64 blocks at or above one and a
    half times the accumulated size, the inode count does not go down, and
    a non-empty size ends up strictly larger and at least 64 blocks. *)
Theorem finalize_bounds {conv : F64.Conversion} s :
  let e := self s in
  0 < BlockSize e -> 64 * BlockSize e < U64.modulus ->
  0 <= totalSize e -> 3 * totalSize e < 2 ^ 53 ->
  0 <= numInodes e -> 3 * numInodes e < 2 ^ 53 ->
  exists s',
    FinalizeSizeContext s = Returns nil s' /\
    3 * totalSize e / 2 <= totalSize (self s') < 3 * totalSize e / 2 + 64 * BlockSize e /\
    totalSize e <= totalSize (self s') /\
    numInodes e <= numInodes (self s') /\
    (0 < totalSize e ->
     totalSize e < totalSize (self s') /\ 64 * BlockSize e <= totalSize (self s')).
Proof.
  intros e Hb Hfit Ht0 Ht Hn0 Hn.
  destruct (finalize_small s Hb Hfit Ht0 Ht Hn0 Hn) as (s' & E & Hs' & _). fold e in Hs'.
  exists s'. split; [exact E|]. rewrite Hs'. cbn [totalSize numInodes].
  set (t := 3 * totalSize e / 2). set (a := 64 * BlockSize e).
  assert (Ha : 0 < a) by (subst a; lia).
  pose proof (roundUp_ge t a Ha). pose proof (roundUp_lt t a Ha).
  assert (Htt : totalSize e <= t).
  { subst t. apply Z.div_le_lower_bound; lia. }
  assert (Hnn : numInodes e <= 3 * numInodes e / 2).
  { apply Z.div_le_lower_bound; lia. }
  split; [lia|]. split; [lia|]. split; [lia|]. intros Hpos. split.
  - destruct (Z.eq_dec (totalSize e) 1) as [E1|E1].
    + assert (a <= roundUp t a) by (apply roundUp_pos; lia). subst a. lia.
    + assert (totalSize e + 1 <= t) by (subst t; apply Z.div_le_lower_bound; lia). lia.
  - apply roundUp_pos; lia.
Qed.

Lemma finalize_bounds_witness :
  exists s',
    FinalizeSizeContext (conv := F64.amd64) (boot (mkExt4Fs 4096 256 21504 12)) = Returns nil s' /\
    21504 < totalSize (self s') /\ 64 * 4096 <= totalSize (self s').
Proof.
  destruct (finalize_bounds (conv := F64.amd64) (boot (mkExt4Fs 4096 256 21504 12)))
    as (s' & E & _ & _ & _ & Hpos).
  - reflexivity.
  - reflexivity.
  - cbn; lia.
  - reflexivity.
  - cbn; lia.
  - reflexivity.
  - exists s'. split; [exact E|]. apply Hpos. reflexivity.
Defined.

(** X15: nothing stops a second [FinalizeSizeContext]: on small values it scales
    the already finalized totals again, so the size grows once more. *)
Theorem finalize_twice_grows {conv : F64.Conversion} s :
  let e := self s in
  0 < BlockSize e -> 64 * BlockSize e < U64.modulus ->
  0 < totalSize e -> 3 * (3 * totalSize e / 2 + 64 * BlockSize e) < 2 ^ 53 ->
  0 <= numInodes e -> 9 * numInodes e < 2 ^ 54 ->
  exists s1 s2,
    FinalizeSizeContext s = Returns nil s1 /\
    FinalizeSizeContext s1 = Returns nil s2 /\
    totalSize (self s1) < totalSize (self s2) /\
    totalSize (self s2) mod (64 * BlockSize e) = 0 /\
    numInodes (self s2) = 3 * (3 * numInodes e / 2) / 2.
Proof.
  intros e Hb Hfit Ht0 Ht Hn0 Hn. subst e.
  set (bs := BlockSize (self s)) in *. set (t := totalSize (self s)) in *.
  set (n := numInodes (self s)) in *.
  assert (Hn1 : 0 <= 3 * n / 2 /\ 3 * (3 * n / 2) < 2 ^ 53).
  { split; [apply Z.div_pos; lia|].
    pose proof (Z.mul_div_le (3 * n) 2 ltac:(lia)). lia. }
  assert (Hle : t <= 3 * t / 2) by (apply Z.div_le_lower_bound; lia).
  assert (Ht3 : 3 * t < 2 ^ 53) by lia.
  destruct (finalize_small s Hb Hfit ltac:(fold t; lia) Ht3 Hn0 ltac:(fold n; lia))
    as (s1 & E1 & Hs1 & _). fold bs t n in Hs1.
  pose proof (roundUp_ge (3 * t / 2) (64 * bs) ltac:(lia)) as Hge.
  pose proof (roundUp_lt (3 * t / 2) (64 * bs) ltac:(lia)) as Hlt.
  assert (Hb1 : BlockSize (self s1) = bs) by (rewrite Hs1; reflexivity).
  assert (Ht1 : totalSize (self s1) = roundUp (3 * t / 2) (64 * bs))
    by (rewrite Hs1; reflexivity).
  assert (Hi1 : numInodes (self s1) = 3 * n / 2) by (rewrite Hs1; reflexivity).
  destruct (finalize_small s1) as (s2 & E2 & Hs2 & _);
    rewrite ?Hb1, ?Ht1, ?Hi1; try lia.
  exists s1, s2. split; [exact E1|]. split; [exact E2|].
  rewrite Hb1, Ht1, Hi1 in Hs2. rewrite Hs2, Ht1. cbn [totalSize numInodes].
  split; [|split; [apply roundUp_multiple|reflexivity]].
  set (t1 := roundUp (3 * t / 2) (64 * bs)) in *.
  assert (Ht1pos : 64 * bs <= t1) by (apply roundUp_pos; lia).
  assert (t1 + 1 <= 3 * t1 / 2) by (apply Z.div_le_lower_bound; lia).
  pose proof (roundUp_ge (3 * t1 / 2) (64 * bs) ltac:(lia)). lia.
Qed.

Lemma finalize_twice_grows_witness :
  exists s1 s2,
    FinalizeSizeContext (conv := F64.amd64) (boot (mkExt4Fs 4096 256 4864 11)) = Returns nil s1 /\
    FinalizeSizeContext (conv := F64.amd64) s1 = Returns nil s2 /\
    totalSize (self s1) < totalSize (self s2) /\
    numInodes (self s2) = 24.
Proof.
  destruct (finalize_twice_grows (conv := F64.amd64) (boot (mkExt4Fs 4096 256 4864 11)))
    as (s1 & s2 & E1 & E2 & Hlt & _ & Hn).
  - reflexivity.
  - reflexivity.
  - reflexivity.
  - reflexivity.
  - cbn; lia.
  - reflexivity.
  - exists s1, s2. split; [exact E1|]. split; [exact E2|]. split; [exact Hlt|].
    rewrite Hn. reflexivity.
Defined.

(** X16: [FinalizeSizeContext] panics exactly when 64 times the block size is 0
    in 64 bits, that is when the block size is a multiple of 2^58, zero
    included; otherwise it returns [nil]. *)
Theorem finalize_panics_iff {conv : F64.Conversion} s :
  (FinalizeSizeContext s = Panics DivideByZero <-> BlockSize (self s) mod 2 ^ 58 = 0) /\
  (BlockSize (self s) mod 2 ^ 58 <> 0 -> exists s', FinalizeSizeContext s = Returns nil s').
Proof.
  assert (Ha : U64.mul 64 (BlockSize (self s)) = 0 <-> BlockSize (self s) mod 2 ^ 58 = 0).
  { unfold U64.mul, U64.wrap, U64.modulus.
    change (2 ^ 64) with (64 * 2 ^ 58). rewrite Z.mul_mod_distr_l by lia. lia. }
  split; [split|].
  - intros E. apply Ha.
    destruct (Z.eq_dec (U64.mul 64 (BlockSize (self s))) 0) as [Hz|Hnz]; [exact Hz|].
    rewrite (FinalizeSizeContext_run s Hnz) in E. discriminate.
  - intros Hm. apply FinalizeSizeContext_panics. now apply Ha.
  - intros Hm. eexists. apply FinalizeSizeContext_run. intros Hz. now apply Hm, Ha.
Qed.

Lemma finalize_panics_iff_witness :
  FinalizeSizeContext (conv := F64.amd64) (boot (mkExt4Fs (2 ^ 58) 256 4864 11))
  = Panics DivideByZero.
Proof.
  apply (finalize_panics_iff (conv := F64.amd64) (boot (mkExt4Fs (2 ^ 58) 256 4864 11))).
  reflexivity.
Defined.


(** ** From the calls to the size handed to the formatter *)

(** X17: end to end, on small values: after [InitSizeContext], any calls and
    [FinalizeSizeContext], [GetSizeInfo] reports one and a half times the
    11 reserved inodes plus those of the calls, and one and a half times
    the baseline plus the bytes of the calls, rounded up to 64 blocks. *)
Theorem size_info_closed_form {conv : F64.Conversion} blockSize inodeSize cs :
  0 < blockSize -> 64 * blockSize < U64.modulus ->
  U64.inRange inodeSize -> Forall wf_call cs ->
  let base := Z.max (U64.add 2048 (U64.mul 11 inodeSize)) blockSize in
  let bytes := base + session_bytes blockSize inodeSize cs in
  let inodes := 11 + session_inodes cs in
  3 * bytes < 2 ^ 53 -> 3 * inodes < 2 ^ 53 ->
  exists s s',
    session blockSize inodeSize cs = Returns tt s /\
    FinalizeSizeContext s = Returns nil s' /\
    GetSizeInfo (self s') =
      mkFilesystemSizeInfo (3 * inodes / 2) (roundUp (3 * bytes / 2) (64 * blockSize)) /\
    16 <= NumInodes (GetSizeInfo (self s')) /\
    64 * blockSize <= TotalSize (GetSizeInfo (self s')).
Proof.
  intros Hb Hfit Hi Hcs base bytes inodes Hbytes Hinodes.
  assert (Hsum : 0 <= session_bytes blockSize inodeSize cs /\ 0 <= session_inodes cs).
  { unfold session_bytes, session_inodes, sumZ.
    clear Hbytes Hinodes bytes inodes.
    induction Hcs as [|c cs' Hc _ IH]; cbn [map fold_right]; [lia|].
    pose proof (spec_bytes_nonneg blockSize inodeSize c ltac:(lia) (proj1 Hi) Hc).
    pose proof (spec_inodes_nonneg c). lia. }
  assert (Hbase : 0 < base) by (subst base; lia).
  assert (Hb0 : 0 < bytes) by (subst bytes; lia).
  assert (Hi0 : 11 <= inodes) by (subst inodes; lia).
  pose proof (session_final blockSize inodeSize cs
                ltac:(unfold U64.inRange; lia) Hi Hcs) as Hf.
  destruct (Z.eqb_spec blockSize 0) as [|_]; [lia|]. cbn [andb] in Hf.
  destruct (session blockSize inodeSize cs) as [[] s|r]; [|discriminate].
  unfold final in Hf.
  assert (Hself := f_equal (fun o => match o with Some e => e | None => self s end) Hf).
  cbv beta iota in Hself. clear Hf.
  fold base in Hself. fold bytes in Hself. fold inodes in Hself.
  rewrite !wrap_small in Hself by (unfold U64.inRange, U64.modulus; lia).
  destruct (finalize_small s) as (s' & E' & Hs' & _);
    rewrite ?Hself; cbn [BlockSize InodeSize totalSize numInodes]; try lia.
  rewrite Hself in Hs'. cbn [BlockSize InodeSize totalSize numInodes] in Hs'.
  exists s, s'. split; [reflexivity|]. split; [exact E'|].
  rewrite Hs'. unfold GetSizeInfo. cbn [NumInodes TotalSize totalSize numInodes].
  split; [reflexivity|]. split.
  - apply Z.div_le_lower_bound; lia.
  - apply roundUp_pos; [|lia]. apply Z.div_str_pos. lia.
Qed.

Lemma size_info_closed_form_witness :
  exists s s',
    session 4096 256 [Dir "etc"; RegFile "etc/passwd" 10000] = Returns tt s /\
    FinalizeSizeContext (conv := F64.amd64) s = Returns nil s' /\
    GetSizeInfo (self s') = mkFilesystemSizeInfo 19 262144.
Proof.
  destruct (size_info_closed_form (conv := F64.amd64) 4096 256
              [Dir "etc"; RegFile "etc/passwd" 10000])
    as (s & s' & E & F & Hg & _).
  - lia.
  - reflexivity.
  - unfold U64.inRange, U64.modulus. lia.
  - repeat constructor; unfold U64.inRange, U64.modulus; lia.
  - reflexivity.
  - reflexivity.
  - exists s, s'. split; [exact E|]. split; [exact F|]. rewrite Hg. reflexivity.
Defined.

(** ** Formatting, further *)

Lemma FinalizeSizeContext_keeps {conv : F64.Conversion} s err s' :
  FinalizeSizeContext s = Returns err s' ->
  BlockSize (self s') = BlockSize (self s) /\ InodeSize (self s') = InodeSize (self s).
Proof.
  intros E. destruct (Z.eq_dec (U64.mul 64 (BlockSize (self s))) 0) as [Hz|Hnz].
  - rewrite (FinalizeSizeContext_panics s Hz) in E. discriminate.
  - rewrite (FinalizeSizeContext_run s Hnz) in E. injection E as _ <-. split; reflexivity.
Qed.

Lemma MakeFileSystem_self {tool : Exec} file s err s' :
  MakeFileSystem file s = Returns err s' -> self s' = self s.
Proof.
  intros E.
  destruct (is_nil (Run "mkfs.ext4" (mkfs_args (self s) file))) eqn:Hn.
  - destruct (MakeFileSystem_success file s) as (s1 & E1 & Hs & _).
    { destruct (Run "mkfs.ext4" (mkfs_args (self s) file)); [reflexivity|discriminate..]. }
    congruence.
  - destruct (MakeFileSystem_failure file s) as (s1 & E1 & Hs & _).
    { intros Hnil. rewrite Hnil in Hn. discriminate. }
    congruence.
Qed.

(** X18: no method changes the configuration: through [InitSizeContext], any
    calls, [FinalizeSizeContext], [MakeFileSystem] and
    [CleanupSizeContext] the block size and the inode size stay what the
    caller set, and formatting and cleanup leave the whole receiver as
    finalization left it. *)
Theorem configuration_is_kept {conv : F64.Conversion} {tool : Exec}
    blockSize inodeSize cs file s s1 s2 s3 err1 err2 err3 :
  session blockSize inodeSize cs = Returns tt s ->
  FinalizeSizeContext s = Returns err1 s1 ->
  MakeFileSystem file s1 = Returns err2 s2 ->
  CleanupSizeContext s2 = Returns err3 s3 ->
  BlockSize (self s3) = blockSize /\ InodeSize (self s3) = inodeSize /\
  self s3 = self s1 /\ err3 = nil.
Proof.
  intros E E1 E2 E3.
  destruct (session_keeps _ _ _ _ E) as (Hb & Hi & _).
  destruct (FinalizeSizeContext_keeps _ _ _ E1) as (Hb1 & Hi1).
  pose proof (MakeFileSystem_self _ _ _ _ E2) as H2.
  unfold CleanupSizeContext, ret in E3. injection E3 as <- <-.
  rewrite H2. repeat split; congruence.
Qed.

Lemma configuration_is_kept_witness :
  exists s s1 s2 s3,
    session 4096 256 [Dir "etc"] = Returns tt s /\
    FinalizeSizeContext (conv := F64.amd64) s = Returns nil s1 /\
    MakeFileSystem (tool := failing_tool) (mkFile "img") s1 = Returns (ExitError 1) s2 /\
    CleanupSizeContext s2 = Returns nil s3 /\
    BlockSize (self s3) = 4096 /\ InodeSize (self s3) = 256.
Proof.
  eexists. eexists. eexists. eexists.
  split; [vm_compute; reflexivity|]. split; [vm_compute; reflexivity|].
  split; [vm_compute; reflexivity|]. split; [vm_compute; reflexivity|].
  edestruct (configuration_is_kept (conv := F64.amd64) (tool := failing_tool)
               4096 256 [Dir "etc"] (mkFile "img")) as (Hb & Hi & _);
    [vm_compute; reflexivity..|].
  split; [exact Hb|exact Hi].
Defined.

(** X19: for every tool [MakeFileSystem] returns, hands back exactly what the
    tool reported, leaves the receiver alone, and sleeps its 100 hours when
    and only when the tool failed. *)
Theorem MakeFileSystem_outcome {tool : Exec} file s :
  let err := Run "mkfs.ext4" (mkfs_args (self s) file) in
  exists s',
    MakeFileSystem file s = Returns err s' /\
    self s' = self s /\
    (err = nil -> slept s' = slept s) /\
    (err <> nil -> slept s' = slept s + 100 * Hour) /\
    (slept s' = slept s <-> err = nil).
Proof.
  intros err. destruct (is_nil err) eqn:Hn.
  - assert (Hnil : err = nil) by (destruct err; [reflexivity|discriminate..]).
    destruct (MakeFileSystem_success file s Hnil) as (s' & E & Hs & Hsl).
    exists s'. fold err. rewrite Hnil in *. split; [exact E|]. split; [exact Hs|].
    split; [auto|]. split; [congruence|]. split; auto.
  - assert (Hnn : err <> nil) by (intros Hnil; rewrite Hnil in Hn; discriminate).
    destruct (MakeFileSystem_failure file s Hnn) as (s' & E & Hs & Hsl).
    exists s'. split; [exact E|]. split; [exact Hs|].
    split; [congruence|]. split; [auto|]. rewrite Hsl. unfold Hour. split; [lia|congruence].
Qed.

Lemma MakeFileSystem_outcome_witness :
  exists s',
    MakeFileSystem (tool := failing_tool) (mkFile "img") (boot (mkExt4Fs 4096 256 262144 16))
      = Returns (ExitError 1) s' /\
    slept s' = 100 * Hour.
Proof.
  destruct (MakeFileSystem_outcome (tool := failing_tool) (mkFile "img")
              (boot (mkExt4Fs 4096 256 262144 16))) as (s' & E & _ & _ & Hsl & _).
  exists s'. split; [exact E|]. rewrite Hsl; [reflexivity|discriminate].
Defined.

Lemma MakeFileSystem_value {tool : Exec} file s :
  value (MakeFileSystem file s) = Some (Run "mkfs.ext4" (mkfs_args (self s) file)).
Proof.
  destruct (Run "mkfs.ext4" (mkfs_args (self s) file)) eqn:Hr.
  - destruct (MakeFileSystem_success file s Hr) as (s' & E & _). rewrite E. reflexivity.
  - destruct (MakeFileSystem_failure file s) as (s' & E & _);
      [rewrite Hr; discriminate|]. rewrite E, Hr. reflexivity.
  - destruct (MakeFileSystem_failure file s) as (s' & E & _);
      [rewrite Hr; discriminate|]. rewrite E, Hr. reflexivity.
Qed.

Lemma ParseUint10_FormatUint10 x : 0 <= x -> ParseUint10 (FormatUint10 x) = Some x.
Proof.
  intros Hx. unfold ParseUint10, FormatUint10.
  rewrite NilZero.usu.
  - now rewrite DecimalN.Unsigned.of_to, Z2N.id.
  - destruct (Z.to_N x) as [|p]; [discriminate|]. apply DecimalPos.Unsigned.to_uint_nonnil.
Qed.

(** X20: the command line of [MakeFileSystem] pins the format to the receiver:
    whatever the tool, it is run with the journal and the resize inode
    switched off, and the decimal strings after -N, -b and -I read back as
    the inode count, the block size and the inode size; the total size is
    not on the command line. *)
Theorem mkfs_command_line file e :
  0 <= numInodes e -> 0 <= BlockSize e -> 0 <= InodeSize e ->
  exists n b i,
    (forall (tool : Exec) log z,
       value (MakeFileSystem file (mkStore e log z)) =
       Some (Run "mkfs.ext4" ["-O"; "^has_journal,^resize_inode"; "-N"; n; "-b"; b;
                              "-I"; i; "-F"; Name file]%string)) /\
    ParseUint10 n = Some (numInodes e) /\
    ParseUint10 b = Some (BlockSize e) /\
    ParseUint10 i = Some (InodeSize e) /\
    (forall v, mkfs_args (set_totalSize v e) file = mkfs_args e file).
Proof.
  intros Hn Hb Hi.
  exists (FormatUint10 (numInodes e)), (FormatUint10 (BlockSize e)),
         (FormatUint10 (InodeSize e)).
  split; [|split; [|split; [|split]]]; try now apply ParseUint10_FormatUint10.
  - intros tool log z. apply MakeFileSystem_value.
  - intros v. reflexivity.
Qed.

Lemma mkfs_command_line_witness :
  exists n b i,
    value (MakeFileSystem (tool := failing_tool) (mkFile "img")
             (boot (mkExt4Fs 4096 256 262144 16))) =
    Some (Run (Exec := failing_tool) "mkfs.ext4"
            ["-O"; "^has_journal,^resize_inode"; "-N"; n; "-b"; b; "-I"; i; "-F"; "img"]%string) /\
    ParseUint10 n = Some 16 /\ ParseUint10 b = Some 4096 /\ ParseUint10 i = Some 256.
Proof.
  destruct (mkfs_command_line (mkFile "img") (mkExt4Fs 4096 256 262144 16))
    as (n & b & i & Hrun & Hn & Hb & Hi & _).
  - cbn; lia.
  - cbn; lia.
  - cbn; lia.
  - exists n, b, i. split; [apply (Hrun failing_tool [] 0)|]. auto.
Defined.
